(** * PixelLens: the signed-URL cache and the gallery loader

    A shallow embedding of the caching-and-fetch pipeline of [src/App.jsx]
    (lines 16-65, 168-198 and 221-259), of the favorites (lines 145-148 and
    289-301) and of what the page shows of both (lines 108-115 and
    426-612), and the properties of its specification.

    Modelling conventions.
    - JavaScript values that can reach the cache are JSON values ([jsval]);
      [undefined] is the [None] of [option jsval].
    - Numbers are the integers of Z (epoch milliseconds); [NaN] is explicit.
    - The [Map] behind the cache and plain objects used as dictionaries are
      finite maps ([gmap string _]): no code of the pipeline observes the
      iteration order.
    - Effects are threaded through a state-and-exception monad [M] over
      [World]: the browser's storage, the cache, the console, the clock, the
      signing requests sent so far and the two pieces of React state.
    - [async] functions are split at their [await]: the part that runs
      synchronously, and the part that runs when the awaited promise settles.
      An awaited call settles, fulfilled or rejected; a call that stays
      pending for ever has no run here.
    - The JSON codec and the string-to-number conversion of the engine are
      parameters ([Platform]); the object store is a parameter ([Env]). *)

From Stdlib Require Import ZArith Lia Ascii.
From stdpp Require Import gmap strings list fin_maps pretty sorting.

Set Warnings "-register-all".
Local Open Scope Z_scope.

(** ** Values *)

Inductive jsval :=
  | JNull
  | JBool (b : bool)
  | JNum (n : Z)
  | JStr (s : string)
  | JArr (l : list jsval)
  | JObj (m : gmap string jsval).

Inductive number :=
  | NaN
  | Num (n : Z).

Record Error := { name : string; message : string }.

Inductive Completion (A : Type) :=
  | Normal (a : A)
  | Throw (e : Error).
Arguments Normal {A} a.
Arguments Throw {A} e.

Definition TypeError (msg : string) : Error :=
  {| name := "TypeError"; message := msg |}.

Definition completion_bind {A B} (c : Completion A) (k : A -> Completion B)
  : Completion B :=
  match c with
  | Normal a => k a
  | Throw e => Throw e
  end.

(** ** The engine's conversions *)

Class Platform := {
  JSON_parse : string -> Completion jsval;
  JSON_stringify : jsval -> string;
  StringToNumber : string -> number
}.

(** [ToBoolean]: the test of [&&], [?:] and [!]. *)
Definition ToBoolean (v : option jsval) : bool :=
  match v with
  | None => false
  | Some JNull => false
  | Some (JBool b) => b
  | Some (JNum n) => negb (n =? 0)
  | Some (JStr s) => negb (String.eqb s "")
  | Some (JArr _) => true
  | Some (JObj _) => true
  end.

(** [v.p] on a value that came out of [JSON.parse]: only own properties of
    objects can be called [timestamp] or [url]. *)
Definition get_property (v : jsval) (p : string) : option jsval :=
  match v with
  | JObj m => m !! p
  | _ => None
  end.

Definition Array_join (sep : string) (parts : list string) : string :=
  match parts with
  | [] => ""
  | p :: ps => foldl (fun acc q => acc +:+ sep +:+ q) p ps
  end.

(** [ToString]. An object from [JSON.parse] inherits [toString] unless it has
    an own property of that name, which then is not callable: the conversion
    throws. *)
Fixpoint ToString (v : jsval) : Completion string :=
  match v with
  | JNull => Normal "null"
  | JBool b => Normal (if b then "true" else "false")
  | JNum n => Normal (pretty n)
  | JStr s => Normal s
  | JArr l =>
      completion_bind
        ((fix elements (l : list jsval) : Completion (list string) :=
            match l with
            | [] => Normal []
            | x :: l' =>
                completion_bind
                  (match x with JNull => Normal "" | _ => ToString x end)
                  (fun s => completion_bind (elements l')
                              (fun ss => Normal (s :: ss)))
            end) l)
        (fun parts => Normal (Array_join "," parts))
  | JObj m =>
      match m !! "toString" with
      | Some _ => Throw (TypeError "Cannot convert object to primitive value")
      | None => Normal "[object Object]"
      end
  end.

Section Engine.
Context {P : Platform}.

(** [ToNumber], as applied to the right operand of [-]. *)
Definition ToNumber (v : option jsval) : Completion number :=
  match v with
  | None => Normal NaN
  | Some JNull => Normal (Num 0)
  | Some (JBool b) => Normal (Num (if b then 1 else 0))
  | Some (JNum n) => Normal (Num n)
  | Some (JStr s) => Normal (StringToNumber s)
  | Some (JArr l) =>
      completion_bind (ToString (JArr l)) (fun s => Normal (StringToNumber s))
  | Some (JObj m) =>
      completion_bind (ToString (JObj m)) (fun _ => Normal NaN)
  end.

End Engine.

(** [a - b] and [a < b], [a > b] on numbers: anything with [NaN] is [NaN],
    and every comparison with [NaN] is false. *)
Definition number_sub (a b : number) : number :=
  match a, b with
  | Num x, Num y => Num (x - y)
  | _, _ => NaN
  end.

Definition number_lt (a b : number) : bool :=
  match a, b with
  | Num x, Num y => x <? y
  | _, _ => false
  end.

Definition number_gt (a b : number) : bool := number_lt b a.

(** [Object.entries]. *)
Definition Object_entries (v : jsval) : Completion (list (string * jsval)) :=
  match v with
  | JNull => Throw (TypeError "Cannot convert undefined or null to object")
  | JBool _ => Normal []
  | JNum _ => Normal []
  | JStr s =>
      Normal (imap (fun i c => (pretty i, JStr (String c EmptyString)))
                   (String.list_ascii_of_string s))
  | JArr l => Normal (imap (fun i x => (pretty i, x)) l)
  | JObj m => Normal (map_to_list m)
  end.

(** [new Map(entries)]: the entries are set one after the other. *)
Definition new_Map (entries : list (string * jsval)) : gmap string jsval :=
  foldl (fun m kv => <[kv.1 := kv.2]> m) ∅ entries.

(** [Object.fromEntries(map)]. *)
Definition Object_fromEntries (m : gmap string jsval) : jsval := JObj m.

(** ** The world the program runs in *)

(** [localStorage]: the stored items, whether the page may use the storage
    at all (a page that may not gets a [SecurityError] on every access), and
    the quota, counted in characters of keys and values. *)
Record Storage := {
  items : gmap string string;
  denied : bool;
  quota : N
}.

Definition SecurityError : Error :=
  {| name := "SecurityError"; message := "The operation is insecure." |}.

Definition QuotaExceededError : Error :=
  {| name := "QuotaExceededError"; message := "The quota has been exceeded." |}.

Definition usage (its : gmap string string) : N :=
  map_fold (fun k v acc =>
              (N.of_nat (String.length k) + N.of_nat (String.length v) + acc)%N)
           0%N its.

Definition getItem (key : string) (st : Storage) : Completion (option string) :=
  if denied st then Throw SecurityError else Normal (items st !! key).

Definition setItem (key value : string) (st : Storage) : Completion Storage :=
  if denied st then Throw SecurityError
  else
    let its := <[key := value]> (items st) in
    if (usage its <=? quota st)%N
    then Normal {| items := its; denied := denied st; quota := quota st |}
    else Throw QuotaExceededError.

Definition removeItem (key : string) (st : Storage) : Completion Storage :=
  if denied st then Throw SecurityError
  else Normal {| items := delete key (items st);
                 denied := denied st; quota := quota st |}.

(** What [ListObjectsV2] answers for one object, and the record the gallery
    shows for it. The store sends a key and a date for every object;
    [LastModified] is the [getTime()] of the date. *)
Record S3Object := { Key : string; LastModified : Z }.

Record ImageRecord := { id : string; url : jsval; lastModified : Z }.

(** [getSignedUrl(s3Client, new GetObjectCommand({Bucket, Key}), {expiresIn})] *)
Record SignRequest := { cmd_Bucket : string; cmd_Key : string; expiresIn : Z }.

Record World := {
  localStorage : Storage;
  cache : gmap string jsval;          (* the Map closed over by imageUrlCache *)
  console : list (string * Error);    (* console.error(msg, error) *)
  clock : Z;                          (* what Date.now() reads *)
  requests : list SignRequest;        (* calls to getSignedUrl so far *)
  loading : bool;                     (* useState(true) *)
  images : list ImageRecord           (* useState([]) *)
}.

Definition with_localStorage (st : Storage) (w : World) : World :=
  {| localStorage := st; cache := cache w; console := console w;
     clock := clock w; requests := requests w; loading := loading w;
     images := images w |}.

Definition with_cache (c : gmap string jsval) (w : World) : World :=
  {| localStorage := localStorage w; cache := c; console := console w;
     clock := clock w; requests := requests w; loading := loading w;
     images := images w |}.

Definition with_console (l : list (string * Error)) (w : World) : World :=
  {| localStorage := localStorage w; cache := cache w; console := l;
     clock := clock w; requests := requests w; loading := loading w;
     images := images w |}.

Definition with_clock (t : Z) (w : World) : World :=
  {| localStorage := localStorage w; cache := cache w; console := console w;
     clock := t; requests := requests w; loading := loading w;
     images := images w |}.

Definition with_requests (r : list SignRequest) (w : World) : World :=
  {| localStorage := localStorage w; cache := cache w; console := console w;
     clock := clock w; requests := r; loading := loading w;
     images := images w |}.

Definition with_loading (b : bool) (w : World) : World :=
  {| localStorage := localStorage w; cache := cache w; console := console w;
     clock := clock w; requests := requests w; loading := b;
     images := images w |}.

Definition with_images (l : list ImageRecord) (w : World) : World :=
  {| localStorage := localStorage w; cache := cache w; console := console w;
     clock := clock w; requests := requests w; loading := loading w;
     images := l |}.

(** ** The monad of statements *)

Definition M (A : Type) : Type := World -> Completion A * World.

Definition ret {A} (a : A) : M A := fun w => (Normal a, w).

Definition bind {A B} (c : M A) (k : A -> M B) : M B :=
  fun w =>
    match c w with
    | (Normal a, w') => k a w'
    | (Throw e, w') => (Throw e, w')
    end.

Definition throw {A} (e : Error) : M A := fun w => (Throw e, w).

(** [try { body } catch (error) { handler }] *)
Definition try_catch {A} (body : M A) (handler : Error -> M A) : M A :=
  fun w =>
    match body w with
    | (Normal a, w') => (Normal a, w')
    | (Throw e, w') => handler e w'
    end.

Definition lift {A} (c : Completion A) : M A := fun w => (c, w).

Declare Scope js_scope.
Delimit Scope js_scope with js.
Notation "'let*' x ':=' c 'in' k" := (bind c (fun x => k))
  (at level 10, x name, c at level 100, k at level 200) : js_scope.
Notation "c1 '>>' c2" := (bind c1 (fun _ => c2))
  (at level 100, c2 at level 200, right associativity) : js_scope.
Local Open Scope js_scope.

(** [array.forEach(f)] *)
Fixpoint forEach {A} (l : list A) (f : A -> M unit) : M unit :=
  match l with
  | [] => ret tt
  | x :: l' => f x >> forEach l' f
  end.

(** [array.map(f)], for an [f] with effects. *)
Fixpoint Array_map {A B} (l : list A) (f : A -> M B) : M (list B) :=
  match l with
  | [] => ret []
  | x :: l' =>
      let* y := f x in
      let* ys := Array_map l' f in
      ret (y :: ys)
  end.

Definition Date_now : M Z := fun w => (Normal (clock w), w).

Definition console_error (msg : string) (error : Error) : M unit :=
  fun w => (Normal tt, with_console (console w ++ [(msg, error)]) w).

Definition localStorage_getItem (key : string) : M (option string) :=
  fun w => (getItem key (localStorage w), w).

Definition localStorage_setItem (key value : string) : M unit :=
  fun w =>
    match setItem key value (localStorage w) with
    | Normal st => (Normal tt, with_localStorage st w)
    | Throw e => (Throw e, w)
    end.

Definition localStorage_removeItem (key : string) : M unit :=
  fun w =>
    match removeItem key (localStorage w) with
    | Normal st => (Normal tt, with_localStorage st w)
    | Throw e => (Throw e, w)
    end.

Definition setLoading (b : bool) : M unit :=
  fun w => (Normal tt, with_loading b w).

Definition setImages (l : list ImageRecord) : M unit :=
  fun w => (Normal tt, with_images l w).

(** ** The persistent cache (lines 16-54) *)

Definition CACHE_KEY : string := "pixelLens-imageCache".

(** The operations of the [Map] that [createPersistentImageCache] closes
    over. *)
Definition Map_get (key : string) : M (option jsval) :=
  fun w => (Normal (cache w !! key), w).

Definition Map_set (key : string) (value : jsval) : M unit :=
  fun w => (Normal tt, with_cache (<[key := value]> (cache w)) w).

Definition Map_has (key : string) : M bool :=
  fun w => (Normal (bool_decide (is_Some (cache w !! key))), w).

Definition Map_clear : M unit :=
  fun w => (Normal tt, with_cache ∅ w).

Definition Map_keys : M (list string) :=
  fun w => (Normal ((map_to_list (cache w)).*1), w).

Definition Map_delete (key : string) : M unit :=
  fun w => (Normal tt, with_cache (delete key (cache w)) w).

Section Cache.
Context {P : Platform}.

Definition loadCache : M jsval :=
  try_catch
    (let* savedCache := localStorage_getItem CACHE_KEY in
     match savedCache with
     | Some s =>
         if ToBoolean (Some (JStr s)) then lift (JSON_parse s)
         else ret (JObj ∅)
     | None => ret (JObj ∅)
     end)
    (fun error => console_error "Error loading cache:" error >> ret (JObj ∅)).

(** Line 29, [new Map(Object.entries(loadCache()))]: the value is the
    content of the new cache. *)
Definition createPersistentImageCache : M (gmap string jsval) :=
  let* loaded := loadCache in
  let* entries := lift (Object_entries loaded) in
  ret (new_Map entries).

(** Line 54, [const imageUrlCache = createPersistentImageCache()]. *)
Definition module_init : M unit :=
  let* c := createPersistentImageCache in
  fun w => (Normal tt, with_cache c w).

Definition saveCache : M unit :=
  try_catch
    (let* cacheObject := fun w => (Normal (Object_fromEntries (cache w)), w) in
     localStorage_setItem CACHE_KEY (JSON_stringify cacheObject))
    (fun error => console_error "Error saving cache:" error).

(** The object returned at lines 40-51 has these four members and no
    other. *)
Definition imageUrlCache_members : list string := ["get"; "set"; "has"; "clear"].

Definition imageUrlCache_get (key : string) : M (option jsval) := Map_get key.

Definition imageUrlCache_set (key : string) (value : jsval) : M unit :=
  Map_set key value >> saveCache.

Definition imageUrlCache_has (key : string) : M bool := Map_has key.

Definition imageUrlCache_clear : M unit :=
  Map_clear >> localStorage_removeItem CACHE_KEY.

(** [imageUrlCache.name(...)]: reading a member the object does not have
    gives [undefined], and calling that throws. [body] is the function the
    call reaches when the member exists. (What the object inherits from
    [Object.prototype] is left out: the program calls [get], [set], [keys]
    and [delete] only, and none of these names is inherited.) *)
Definition imageUrlCache_call {A} (name : string) (body : M A) : M A :=
  if bool_decide (name ∈ imageUrlCache_members) then body
  else throw (TypeError ("imageUrlCache." +:+ name +:+ " is not a function")).

(** ** The expiration sweep (lines 55-65) *)

Definition IMAGE_URL_EXPIRATION : Z := 3600000.

(** [entry.p] where [entry] may be [undefined] or [null]. *)
Definition read_property (v : option jsval) (p : string)
  : Completion (option jsval) :=
  match v with
  | None => Throw (TypeError "Cannot read properties of undefined")
  | Some JNull => Throw (TypeError "Cannot read properties of null")
  | Some x => Normal (get_property x p)
  end.

(** [imageUrlCache.keys] and [imageUrlCache.delete] are written against the
    [Map]; the calls are given the [Map] operation of that name as body. *)
Definition cleanupCache : M unit :=
  let* now := Date_now in
  let* keys := imageUrlCache_call "keys" Map_keys in
  forEach keys (fun key =>
    let* entry := imageUrlCache_call "get" (imageUrlCache_get key) in
    let* timestamp := lift (read_property entry "timestamp") in
    let* t := lift (ToNumber timestamp) in
    if number_gt (number_sub (Num now) t) (Num IMAGE_URL_EXPIRATION)
    then imageUrlCache_call "delete" (Map_delete key)
    else ret tt).

End Cache.

(** ** The object store *)

(** An awaited call: the time that passes until the promise settles, and
    how it settles ([Throw] for a rejection). *)
Record Settled (A : Type) := { elapsed : Z; outcome : Completion A }.
Arguments elapsed {A} s.
Arguments outcome {A} s.

Record ListObjectsV2Output := { Contents : option (list S3Object) }.

Record Env := {
  BUCKET_NAME : string;
  send_ListObjectsV2 : string -> Settled ListObjectsV2Output;
  getSignedUrl : SignRequest -> Settled string
}.

(** [await p]: the clock moves while the task is suspended. *)
Definition await {A} (p : Settled A) : M A :=
  fun w => (outcome p, with_clock (clock w + elapsed p) w).

(** [array.sort(compare)]: the sort is stable, and [compare a b > 0] puts
    [a] after [b]. *)
Fixpoint sort_insert {A} (compare : A -> A -> Z) (x : A) (l : list A) : list A :=
  match l with
  | [] => [x]
  | y :: l' =>
      if 0 <? compare x y then y :: sort_insert compare x l'
      else x :: y :: l'
  end.

Definition Array_sort {A} (compare : A -> A -> Z) (l : list A) : list A :=
  foldr (sort_insert compare) [] l.

(** ** The gallery loader (lines 168-198 and 221-259) *)

(** Lines 186-189, [{ url, timestamp }]. *)
Definition cache_entry (u : string) (t : Z) : jsval :=
  JObj (<["url" := JStr u]> (<["timestamp" := JNum t]> ∅)).

(** A call of [getImageUrl] either returns from the cache or is suspended at
    [await getSignedUrl(...)]. *)
Inductive Stage :=
  | Returned (v : option jsval)
  | Awaits (key : string).

(** The promises that [response.Contents.map(async ...)] collects. *)
Inductive Promise :=
  | Fulfilled (v : option jsval)
  | Rejected (e : Error)
  | Pending (key : string).

Section Loader.
Context {P : Platform}.
Variable env : Env.

Definition signing_request (key : string) : SignRequest :=
  {| cmd_Bucket := BUCKET_NAME env; cmd_Key := key; expiresIn := 3600 |}.

(** Lines 170-184, to the point where [getSignedUrl] has been called. *)
Definition getImageUrl_start (key : string) : M Stage :=
  let* cachedEntry := imageUrlCache_call "get" (imageUrlCache_get key) in
  let* hit :=
    if ToBoolean cachedEntry then
      let* now := Date_now in
      let* timestamp := lift (read_property cachedEntry "timestamp") in
      let* t := lift (ToNumber timestamp) in
      ret (number_lt (number_sub (Num now) t) (Num IMAGE_URL_EXPIRATION))
    else ret false in
  if hit then
    let* url := lift (read_property cachedEntry "url") in
    ret (Returned url)
  else
    (fun w => (Normal tt,
               with_requests (requests w ++ [signing_request key]) w)) >>
    ret (Awaits key).

(** Lines 184-195: the rest of the [try] block once the signing has
    settled, and the [catch]. *)
Definition getImageUrl_settle (key : string) : M (option jsval) :=
  try_catch
    (let* url := await (getSignedUrl env (signing_request key)) in
     let* now := Date_now in
     imageUrlCache_call "set" (imageUrlCache_set key (cache_entry url now)) >>
     ret (Some (JStr url)))
    (fun error =>
       console_error ("Error getting URL for " +:+ key +:+ ":") error >>
       ret (Some JNull)).

(** [await getImageUrl(key)] with nothing else running. *)
Definition getImageUrl (key : string) : M (option jsval) :=
  let* stage := getImageUrl_start key in
  match stage with
  | Returned v => ret v
  | Awaits k => getImageUrl_settle k
  end.

(** One callback of [response.Contents.map]: it runs until its first
    [await]; an exception before that rejects its promise. *)
Definition start_promise (object : S3Object) : M Promise :=
  try_catch
    (let* stage := getImageUrl_start (Key object) in
     ret (match stage with
          | Returned v => Fulfilled v
          | Awaits k => Pending k
          end))
    (fun error => ret (Rejected error)).

(** The signing behind promise [i] settles. *)
Definition settle_promise (promises : list Promise) (i : nat) : M (list Promise) :=
  match promises !! i with
  | Some (Pending key) =>
      let* v := getImageUrl_settle key in
      ret (<[i := Fulfilled v]> promises)
  | _ => ret promises
  end.

Fixpoint settle_promises (promises : list Promise) (order : list nat)
  : M (list Promise) :=
  match order with
  | [] => ret promises
  | i :: order' =>
      let* promises' := settle_promise promises i in
      settle_promises promises' order'
  end.

Fixpoint first_rejection (promises : list Promise) : option Error :=
  match promises with
  | [] => None
  | Rejected e :: _ => Some e
  | _ :: promises' => first_rejection promises'
  end.

Definition promise_value (p : Promise) : option jsval :=
  match p with
  | Fulfilled v => v
  | _ => None
  end.

(** [await Promise.all(promises)]. A promise that is already rejected
    rejects the whole at once; the signings still under way then settle
    after the load has ended, and are no part of this run. Otherwise the
    signings settle one at a time: first those that [order] names, in that
    order, then the others. *)
Definition Promise_all (order : list nat) (promises : list Promise)
  : M (list (option jsval)) :=
  match first_rejection promises with
  | Some e => throw e
  | None =>
      let* settled :=
        settle_promises promises (order ++ seq 0 (length promises)) in
      ret (promise_value <$> settled)
  end.

(** Lines 239-245, [url ? { id, url, lastModified } : null]. *)
Definition image_record (object : S3Object) (u : option jsval)
  : option ImageRecord :=
  match u with
  | Some v =>
      if ToBoolean (Some v)
      then Some {| id := Key object; url := v;
                   lastModified := LastModified object |}
      else None
  | None => None
  end.

(** Line 251, [(a, b) => b.lastModified.getTime() - a.lastModified.getTime()] *)
Definition by_lastModified (a b : ImageRecord) : Z :=
  lastModified b - lastModified a.

Definition loadImagesFromS3 (order : list nat) : M unit :=
  try_catch
    (setLoading true >>
     let* response := await (send_ListObjectsV2 env (BUCKET_NAME env)) in
     match Contents response with
     | None => setImages [] >> setLoading false
     | Some contents =>
         let* imagePromises := Array_map contents start_promise in
         let* urls := Promise_all order imagePromises in
         let processedImages := zip_with image_record contents urls in
         let filteredImages :=
           Array_sort by_lastModified (omap (fun image => image) processedImages) in
         setImages filteredImages >> setLoading false
     end)
    (fun error =>
       console_error "Error loading images from S3:" error >>
       setLoading false).

End Loader.

(** ** A reference engine

    An instance of [Platform] to run the program on concrete inputs: a JSON
    printer and a recursive-descent JSON parser for the values of [jsval],
    and the conversion of decimal text to a number. It covers numbers
    without fraction or exponent part and the escapes of characters below
    256, and rejects other text. The theorems about the program hold for
    every engine; the examples, the instances and the counterexamples run
    on this one. *)

Module Reference.

Abbreviation chars := String.list_ascii_of_string.

Definition quote : ascii := "034"%char.
Definition backslash : ascii := "\"%char.

Definition hex_digit (n : nat) : ascii :=
  if (n <? 10)%nat then ascii_of_nat (48 + n) else ascii_of_nat (87 + n).

Definition escape_char (c : ascii) : string :=
  if Ascii.eqb c quote then String backslash (String quote EmptyString)
  else if Ascii.eqb c backslash then String backslash (String backslash EmptyString)
  else
    match nat_of_ascii c with
    | 8%nat => "\b"
    | 9%nat => "\t"
    | 10%nat => "\n"
    | 12%nat => "\f"
    | 13%nat => "\r"
    | n =>
        if (n <? 32)%nat
        then "\u00" +:+ String (hex_digit (n / 16)) (String (hex_digit (n mod 16)) EmptyString)
        else String c EmptyString
    end.

Fixpoint escape (s : string) : string :=
  match s with
  | EmptyString => EmptyString
  | String c s' => escape_char c +:+ escape s'
  end.

Definition quoted (s : string) : string :=
  String quote (escape s +:+ String quote EmptyString).

Fixpoint stringify (v : jsval) : string :=
  match v with
  | JNull => "null"
  | JBool b => if b then "true" else "false"
  | JNum n => pretty n
  | JStr s => quoted s
  | JArr l => "[" +:+ Array_join "," (map stringify l) +:+ "]"
  | JObj m =>
      "{" +:+
      Array_join ","
        (map_fold (fun k x acc => (quoted k +:+ ":" +:+ stringify x) :: acc) [] m)
      +:+ "}"
  end.

Definition is_ws (c : ascii) : bool :=
  match nat_of_ascii c with
  | 32%nat | 9%nat | 10%nat | 13%nat => true
  | _ => false
  end.

Fixpoint skip_ws (l : list ascii) : list ascii :=
  match l with
  | c :: l' => if is_ws c then skip_ws l' else l
  | [] => []
  end.

Definition is_digit (c : ascii) : bool :=
  let n := nat_of_ascii c in (48 <=? n)%nat && (n <=? 57)%nat.

Definition digit_value (c : ascii) : Z := Z.of_nat (nat_of_ascii c) - 48.

Fixpoint digits (l : list ascii) (acc : Z) : Z * list ascii :=
  match l with
  | c :: l' => if is_digit c then digits l' (10 * acc + digit_value c) else (acc, l)
  | [] => (acc, [])
  end.

(** A number of the JSON grammar without fraction and exponent: digits,
    with no zero in front of another digit. *)
Definition parse_natural (l : list ascii) : option (Z * list ascii) :=
  match l with
  | c :: l' =>
      if negb (is_digit c) then None
      else if Ascii.eqb c "0" && match l' with d :: _ => is_digit d | [] => false end
      then None
      else
        let '(n, rest) := digits l 0 in
        match rest with
        | d :: _ =>
            if Ascii.eqb d "." || Ascii.eqb d "e" || Ascii.eqb d "E"
            then None else Some (n, rest)
        | [] => Some (n, rest)
        end
  | [] => None
  end.

Definition parse_number (l : list ascii) : option (Z * list ascii) :=
  match l with
  | "-"%char :: l' =>
      match parse_natural l' with
      | Some (n, rest) => Some (- n, rest)
      | None => None
      end
  | _ => parse_natural l
  end.

Definition hex_value (c : ascii) : option nat :=
  let n := nat_of_ascii c in
  if (48 <=? n)%nat && (n <=? 57)%nat then Some (n - 48)%nat
  else if (97 <=? n)%nat && (n <=? 102)%nat then Some (n - 87)%nat
  else if (65 <=? n)%nat && (n <=? 70)%nat then Some (n - 55)%nat
  else None.

Definition unescape (c : ascii) : option ascii :=
  match c with
  | "034"%char => Some quote
  | "\"%char => Some backslash
  | "/"%char => Some "/"%char
  | "b"%char => Some (ascii_of_nat 8)
  | "f"%char => Some (ascii_of_nat 12)
  | "n"%char => Some (ascii_of_nat 10)
  | "r"%char => Some (ascii_of_nat 13)
  | "t"%char => Some (ascii_of_nat 9)
  | _ => None
  end.

(** The characters of a string literal, after its opening quote. *)
Fixpoint parse_chars (l : list ascii) : option (string * list ascii) :=
  match l with
  | [] => None
  | "034"%char :: rest => Some (EmptyString, rest)
  | "\"%char :: "u"%char :: "0"%char :: "0"%char :: h1 :: h2 :: rest =>
      match hex_value h1, hex_value h2, parse_chars rest with
      | Some a, Some b, Some (s, r) =>
          Some (String (ascii_of_nat (16 * a + b)) s, r)
      | _, _, _ => None
      end
  | "\"%char :: e :: rest =>
      match unescape e, parse_chars rest with
      | Some c, Some (s, r) => Some (String c s, r)
      | _, _ => None
      end
  | c :: rest =>
      if (nat_of_ascii c <? 32)%nat then None
      else
        match parse_chars rest with
        | Some (s, r) => Some (String c s, r)
        | None => None
        end
  end.

Definition expect (word l : list ascii) : option (list ascii) :=
  if bool_decide (take (length word) l = word)
  then Some (drop (length word) l) else None.

Fixpoint parse_value (fuel : nat) (l : list ascii) : option (jsval * list ascii) :=
  match fuel with
  | O => None
  | S fuel' =>
      match skip_ws l with
      | [] => None
      | "n"%char :: _ =>
          rest ← expect (String.list_ascii_of_string "null") (skip_ws l);
          Some (JNull, rest)
      | "t"%char :: _ =>
          rest ← expect (String.list_ascii_of_string "true") (skip_ws l);
          Some (JBool true, rest)
      | "f"%char :: _ =>
          rest ← expect (String.list_ascii_of_string "false") (skip_ws l);
          Some (JBool false, rest)
      | "034"%char :: l' =>
          '(s, rest) ← parse_chars l'; Some (JStr s, rest)
      | "["%char :: l' =>
          match skip_ws l' with
          | "]"%char :: rest => Some (JArr [], rest)
          | _ => '(vs, rest) ← parse_elements fuel' l'; Some (JArr vs, rest)
          end
      | "{"%char :: l' =>
          match skip_ws l' with
          | "}"%char :: rest => Some (JObj ∅, rest)
          | _ => '(m, rest) ← parse_members fuel' ∅ l'; Some (JObj m, rest)
          end
      | _ => '(n, rest) ← parse_number (skip_ws l); Some (JNum n, rest)
      end
  end
with parse_elements (fuel : nat) (l : list ascii)
  : option (list jsval * list ascii) :=
  match fuel with
  | O => None
  | S fuel' =>
      '(v, rest) ← parse_value fuel' l;
      match skip_ws rest with
      | ","%char :: rest' =>
          '(vs, rest'') ← parse_elements fuel' rest'; Some (v :: vs, rest'')
      | "]"%char :: rest' => Some ([v], rest')
      | _ => None
      end
  end
with parse_members (fuel : nat) (acc : gmap string jsval) (l : list ascii)
  : option (gmap string jsval * list ascii) :=
  match fuel with
  | O => None
  | S fuel' =>
      match skip_ws l with
      | "034"%char :: l' =>
          '(k, rest) ← parse_chars l';
          match skip_ws rest with
          | ":"%char :: rest' =>
              '(v, rest'') ← parse_value fuel' rest';
              match skip_ws rest'' with
              | ","%char :: rest3 => parse_members fuel' (<[k := v]> acc) rest3
              | "}"%char :: rest3 => Some (<[k := v]> acc, rest3)
              | _ => None
              end
          | _ => None
          end
      | _ => None
      end
  end.

Definition SyntaxError : Error :=
  {| name := "SyntaxError"; message := "JSON.parse: unexpected character" |}.

(** The text of one member of an object, a character that can begin a
    number, and a rest of the input before which a number ends. *)
Definition member_text (kx : string * jsval) : string :=
  quoted kx.1 +:+ ":" +:+ stringify kx.2.

Definition starts_number (c : ascii) : bool := is_digit c || Ascii.eqb c "-".

Definition stops_number (tail : list ascii) : bool :=
  match tail with
  | [] => true
  | d :: _ =>
      negb (is_digit d || Ascii.eqb d "." || Ascii.eqb d "e" || Ascii.eqb d "E")
  end.

Definition parse (s : string) : Completion jsval :=
  let l := String.list_ascii_of_string s in
  match parse_value (2 * length l + 2) l with
  | Some (v, rest) =>
      match skip_ws rest with
      | [] => Normal v
      | _ => Throw SyntaxError
      end
  | None => Throw SyntaxError
  end.

(** Decimal text to a number; the empty text is 0. *)
Definition to_number (s : string) : number :=
  let l := reverse (skip_ws (reverse (skip_ws (String.list_ascii_of_string s)))) in
  match l with
  | [] => Num 0
  | _ =>
      match parse_number l with
      | Some (n, []) => Num n
      | _ => NaN
      end
  end.

Definition engine : Platform :=
  {| JSON_parse := parse; JSON_stringify := stringify; StringToNumber := to_number |}.

End Reference.

(** ** The vocabulary of the properties *)

(** A cache of the entries the program writes, [{url, timestamp}]; and an
    engine whose [JSON.parse] reads back what its [JSON.stringify] prints
    for such a cache (never the empty text). *)
Definition well_shaped (m : gmap string jsval) : Prop :=
  forall k x, m !! k = Some x -> exists u t, x = cache_entry u t.

Definition codec_reads_back (P : Platform) : Prop :=
  forall m,
    well_shaped m ->
    JSON_parse (JSON_stringify (Object_fromEntries m))
    = Normal (Object_fromEntries m)
    /\ JSON_stringify (Object_fromEntries m) <> "".

(** No cached entry has a [timestamp] whose conversion to a number throws. *)
Definition timestamps_convert {P : Platform} (c : gmap string jsval) : Prop :=
  forall key entry,
    c !! key = Some entry ->
    exists n, ToNumber (get_property entry "timestamp") = Normal n.

(** The order of the gallery: an image is not older than the next one. *)
Definition newer_first (a b : ImageRecord) : Prop :=
  lastModified a >= lastModified b.

(** ** What a call of [getImageUrl] comes to

    The test of line 171 as a function of the state, and the value a call
    returns: the cached [url] on a hit, else the signed URL, or [null] when
    the signing is rejected. *)

Section Resolution.
Context {P : Platform}.
Variable env : Env.

Definition cache_hit (w : World) (key : string) : Completion bool :=
  if ToBoolean (cache w !! key) then
    completion_bind (read_property (cache w !! key) "timestamp") (fun timestamp =>
    completion_bind (ToNumber timestamp) (fun t =>
    Normal (number_lt (number_sub (Num (clock w)) t) (Num IMAGE_URL_EXPIRATION))))
  else Normal false.

Definition cached_url (w : World) (key : string) : option jsval :=
  match cache w !! key with
  | Some entry => get_property entry "url"
  | None => None
  end.

Definition signed_url (key : string) : option jsval :=
  match outcome (getSignedUrl env (signing_request env key)) with
  | Normal u => Some (JStr u)
  | Throw _ => Some JNull
  end.

Definition resolved_url (w : World) (key : string) : option jsval :=
  match cache_hit w key with
  | Normal true => cached_url w key
  | _ => signed_url key
  end.

End Resolution.

(** ** The promises of one load

    What each promise of [imagePromises] is when [map] returns, the signing
    requests sent by then, and a promise once its signing has settled. *)

Section Promises.
Context {P : Platform}.
Variable env : Env.

Definition promise_at (w : World) (object : S3Object) : Promise :=
  match cache_hit w (Key object) with
  | Throw e => Rejected e
  | Normal true => Fulfilled (cached_url w (Key object))
  | Normal false => Pending (Key object)
  end.

Definition issued_at (w : World) (object : S3Object) : list SignRequest :=
  match cache_hit w (Key object) with
  | Normal false => [signing_request env (Key object)]
  | _ => []
  end.

Definition fulfil (p : Promise) : Promise :=
  match p with
  | Pending key => Fulfilled (signed_url env key)
  | _ => p
  end.

End Promises.

(** ** Sample data

    A storage with room and the state of the page when the script starts;
    states of the cache and of the storage; a bucket of three photos. *)

Definition empty_storage : Storage :=
  {| items := ∅; denied := false; quota := 5000000 |}.

Definition initial_world : World :=
  {| localStorage := empty_storage; cache := ∅; console := []; clock := 0;
     requests := []; loading := true; images := [] |}.

(** The storage holds [record] under the cache's key. *)
Definition persisted (record : string) : World :=
  with_localStorage
    {| items := {[ CACHE_KEY := record ]}; denied := false; quota := 5000000 |}
    initial_world.

(** Ten seconds, and two hours, after an entry for [a] was cached. *)
Definition fresh_world : World :=
  with_clock 10000
    (with_cache {[ "a" := cache_entry "https://signed/a" 0 ]} initial_world).

Definition stale_world : World :=
  with_clock 7200000
    (with_cache {[ "a" := cache_entry "https://signed/a" 0 ]} initial_world).

(** A cache of two entries, not yet saved. *)
Definition unsaved_world : World :=
  with_cache
    (<["a" := cache_entry "https://signed/a?X-Amz-Expires=3600" 1700000000000]>
       (<["2024/b 1.png" := cache_entry "https://signed/b" 1700000000123]> ∅))
    initial_world.

Definition NetworkError : Error :=
  {| name := "NetworkError"; message := "Failed to fetch" |}.

Definition photo_a : S3Object := {| Key := "a"; LastModified := 100 |}.
Definition photo_b : S3Object := {| Key := "b"; LastModified := 200 |}.
Definition photo_c : S3Object := {| Key := "c"; LastModified := 50 |}.

(** A bucket [photos] whose listing settles as [listing] after 120 ms, and
    whose signings take 5 ms and are rejected for the keys in [failing]. *)
Definition store (listing : Completion ListObjectsV2Output)
    (failing : list string) : Env :=
  {| BUCKET_NAME := "photos";
     send_ListObjectsV2 := fun _ => {| elapsed := 120; outcome := listing |};
     getSignedUrl := fun request =>
       {| elapsed := 5;
          outcome :=
            if bool_decide (cmd_Key request ∈ failing) then Throw NetworkError
            else Normal ("https://signed/" +:+ cmd_Key request) |} |}.

Definition three_photos : Completion ListObjectsV2Output :=
  Normal {| Contents := Some [photo_a; photo_b; photo_c] |}.

Definition signed_image (object : S3Object) : ImageRecord :=
  {| id := Key object; url := JStr ("https://signed/" +:+ Key object);
     lastModified := LastModified object |}.

(** The two-entry cache with a storage that has no room for its record. *)
Definition full_storage_world : World :=
  with_localStorage {| items := ∅; denied := false; quota := 10 |} unsaved_world.

(** ** The favorites (lines 145-148 and 289-301) and the images on show
       (lines 486-489)

    The favorites are a piece of React state of their own, read from the
    storage when the component is first rendered; whatever [JSON.parse]
    gives is taken as it is. The functions below take the current value of
    that state and give the next one. *)

Definition FAVORITES_KEY : string := "pixelLens-favorites".

(** [text.includes(part)] on a string. *)
Fixpoint String_includes (part text : string) : bool :=
  String.prefix part text
  || match text with
     | EmptyString => false
     | String _ text' => String_includes part text'
     end.

(** [x === imageId] for a string [imageId]. *)
Definition is_id (imageId : string) (x : jsval) : bool :=
  match x with
  | JStr s => String.eqb s imageId
  | _ => false
  end.

(** [favorites.includes(imageId)]: arrays and strings have the method. *)
Definition includes (favorites : jsval) (imageId : string) : Completion bool :=
  match favorites with
  | JArr l => Normal (existsb (is_id imageId) l)
  | JStr s => Normal (String_includes imageId s)
  | JNull => Throw (TypeError "Cannot read properties of null")
  | _ => Throw (TypeError "favorites.includes is not a function")
  end.

(** [prev.filter((id) => id !== imageId)]: only arrays have the method. *)
Definition without (prev : jsval) (imageId : string) : Completion jsval :=
  match prev with
  | JArr l => Normal (JArr (filter (fun x => is_id imageId x = false) l))
  | JNull => Throw (TypeError "Cannot read properties of null")
  | _ => Throw (TypeError "prev.filter is not a function")
  end.

(** [[...prev, imageId]]: arrays and strings can be spread. *)
Definition with_appended (prev : jsval) (imageId : string) : Completion jsval :=
  match prev with
  | JArr l => Normal (JArr (l ++ [JStr imageId]))
  | JStr s =>
      Normal (JArr (((fun c => JStr (String c EmptyString))
                       <$> String.list_ascii_of_string s)
                    ++ [JStr imageId]))
  | _ => Throw (TypeError "prev is not iterable")
  end.

Definition isFavorite (favorites : jsval) (imageId : string) : Completion bool :=
  includes favorites imageId.

(** [array.filter(f)] for an [f] that can throw. *)
Fixpoint Array_filter {A} (f : A -> Completion bool) (l : list A)
  : Completion (list A) :=
  match l with
  | [] => Normal []
  | x :: l' =>
      completion_bind (f x) (fun keep =>
      completion_bind (Array_filter f l') (fun kept =>
      Normal (if keep then x :: kept else kept)))
  end.

(** Lines 486-489, [images.filter((image) => !showFavorites ||
    favorites.includes(image.id))]. *)
Definition visible_images (showFavorites : bool) (favorites : jsval)
    (imgs : list ImageRecord) : Completion (list ImageRecord) :=
  Array_filter
    (fun image =>
       if negb showFavorites then Normal true
       else includes favorites (id image))
    imgs.

(** [favorites.length === 0]: arrays and strings have a length, an object
    from [JSON.parse] has one if it has a property of that name. *)
Definition length_is_zero (favorites : jsval) : Completion bool :=
  match favorites with
  | JArr l => Normal (match l with [] => true | _ => false end)
  | JStr s => Normal (String.eqb s "")
  | JObj m => Normal (match m !! "length" with
                      | Some (JNum n) => n =? 0
                      | _ => false
                      end)
  | JNull => Throw (TypeError "Cannot read properties of null")
  | _ => Normal false
  end.

(** One card of the grid (lines 490-609): its image, and whether its heart
    is red, [isFavorite(image.id)] at lines 565 and 581. *)
Record Card := { card_image : ImageRecord; card_favorite : bool }.

(** [shown.map((image) => card)]: the cards are made in the order of the
    images, and an exception of [isFavorite] ends the rendering. *)
Fixpoint render_cards (favorites : jsval) (shown : list ImageRecord)
  : Completion (list Card) :=
  match shown with
  | [] => Normal []
  | image :: shown' =>
      completion_bind (isFavorite favorites (id image)) (fun favorite =>
      completion_bind (render_cards favorites shown') (fun cards =>
      Normal ({| card_image := image; card_favorite := favorite |} :: cards)))
  end.

(** What the page shows below its header, lines 426-612:
    [loading ? spinner : showFavorites && favorites.length === 0 ? "No
    favorite images yet" : images.length === 0 ? "No images found" :
    images.filter(...).map(...)]. (The header, lines 316-423, reads
    [favorites.length] as well, and the lightbox, from line 626 on, calls
    [isFavorite] for the selected image; they are no part of this.) *)
Inductive View :=
  | Spinner
  | NoFavoriteImagesYet
  | NoImagesFound
  | Grid (cards : list Card).

Definition gallery_view (isLoading showFavorites : bool) (favorites : jsval)
    (imgs : list ImageRecord) : Completion View :=
  if isLoading then Normal Spinner
  else
    completion_bind
      (if showFavorites then length_is_zero favorites else Normal false)
      (fun none =>
         if none then Normal NoFavoriteImagesYet
         else
           match imgs with
           | [] => Normal NoImagesFound
           | _ =>
               completion_bind (visible_images showFavorites favorites imgs)
                 (fun shown =>
               completion_bind (render_cards favorites shown)
                 (fun cards => Normal (Grid cards)))
           end).

(** Lines 108-115, the image that a shared link opens once there are
    images: under the guard [sharedImageId && images.length > 0], the
    image [images.find((img) => img.id === sharedImageId)] is given to
    [handleImageClick], which selects it. [sharedImageId] is [null] or the
    [image] parameter of the page's address. *)
Definition shared_image (sharedImageId : option string)
    (imgs : list ImageRecord) : option ImageRecord :=
  match sharedImageId with
  | Some shared =>
      if ToBoolean (Some (JStr shared)) then
        match imgs with
        | [] => None
        | _ => List.find (fun img => String.eqb (id img) shared) imgs
        end
      else None
  | None => None
  end.

Section Favorites.
Context {P : Platform}.

(** Lines 145-148, the initial value of the state. *)
Definition initial_favorites : M jsval :=
  let* savedFavorites := localStorage_getItem FAVORITES_KEY in
  match savedFavorites with
  | Some s =>
      if ToBoolean (Some (JStr s)) then lift (JSON_parse s)
      else ret (JArr [])
  | None => ret (JArr [])
  end.

(** Lines 291-298, the function given to [setFavorites]: from the previous
    value to the next one. When it throws, the state keeps its value.
    ([e.stopPropagation()] at line 290 concerns the click only.) *)
Definition toggleFavorite (imageId : string) (prev : jsval) : M jsval :=
  let* member := lift (includes prev imageId) in
  let* newFavorites :=
    lift (if member then without prev imageId else with_appended prev imageId) in
  localStorage_setItem FAVORITES_KEY (JSON_stringify newFavorites) >>
  ret newFavorites.

End Favorites.

(** ** More vocabulary *)

(** The test of line 171 fails for [key]. *)
Definition cache_miss {P : Platform} (w : World) (key : string) : bool :=
  match cache_hit w key with
  | Normal false => true
  | _ => false
  end.

(** A listing that names no object before a newer one. *)
Definition listed_newer_first (a b : S3Object) : Prop :=
  LastModified a >= LastModified b.

(** The next value of the favorites when the previous one is the array
    [l] (lines 292-294). *)
Definition toggled (imageId : string) (l : list jsval) : list jsval :=
  if existsb (is_id imageId) l
  then filter (fun y => is_id imageId y = false) l
  else l ++ [JStr imageId].

(** The favorites as the page writes them: a list of ids, none twice. *)
Definition favorite_ids (favorites : jsval) : Prop :=
  exists ids, favorites = JArr (JStr <$> ids) /\ NoDup ids.

(** A cache with an entry for [b] whose [timestamp] is an object with a
    property [toString]. *)
Definition tampered_entry : jsval :=
  JObj {[ "url" := JStr "https://signed/b";
          "timestamp" := JObj {[ "toString" := JNum 1 ]} ]}.

Definition tampered_world : World :=
  with_cache {[ "b" := tampered_entry ]} initial_world.

(** What a run may do to the world besides moving the clock and writing
    to the console: add cache entries, and write the record of the cache. *)
Definition only_caches (w w' : World) : Prop :=
  requests w' = requests w
  /\ images w' = images w
  /\ loading w' = loading w
  /\ denied (localStorage w') = denied (localStorage w)
  /\ quota (localStorage w') = quota (localStorage w)
  /\ (forall k, k <> CACHE_KEY ->
              items (localStorage w') !! k = items (localStorage w) !! k)
  /\ (forall key, is_Some (cache w !! key) -> is_Some (cache w' !! key))
  /\ (well_shaped (cache w) -> well_shaped (cache w')).

(** * Properties *)

(** ** Maps, objects and the storage *)

(** Setting the entries of a list without repeated keys one after the other
    builds the map of that list. *)
Lemma new_Map_list_to_map (l : list (string * jsval)) :
  NoDup (l.*1) -> new_Map l = list_to_map l.
Proof.
  unfold new_Map.
  induction l as [|[k v] l IH] using rev_ind; intros Hnd; [done|].
  rewrite foldl_app. simpl.
  rewrite fmap_app in Hnd. apply NoDup_app in Hnd as (Hl & Hk & _).
  rewrite IH by done.
  apply map_eq. intros i.
  destruct (decide (k = i)) as [->|Hne].
  - rewrite lookup_insert_eq. symmetry.
    apply elem_of_list_to_map_1.
    + rewrite fmap_app. apply NoDup_app. split_and!; [done| |].
      * intros x Hx Hx'. simpl in Hx'. apply (Hk x Hx). exact Hx'.
      * simpl. apply NoDup_singleton.
    + set_solver.
  - rewrite lookup_insert_ne by done.
    destruct (list_to_map l !! i) as [x|] eqn:Hx.
    + symmetry. apply elem_of_list_to_map_1.
      * rewrite fmap_app. apply NoDup_app. split_and!; [done| |].
        -- intros y Hy Hy'. apply (Hk y Hy). exact Hy'.
        -- simpl. apply NoDup_singleton.
      * apply elem_of_app. left. by apply elem_of_list_to_map_2.
    + symmetry. apply not_elem_of_list_to_map_1.
      rewrite fmap_app. intros Hi. apply elem_of_app in Hi as [Hi|Hi].
      * apply not_elem_of_list_to_map in Hx; done.
      * simpl in Hi. apply list_elem_of_singleton in Hi. congruence.
Qed.

(** [new Map(Object.entries(Object.fromEntries(map)))] is [map] again. *)
Lemma new_Map_entries_fromEntries (m : gmap string jsval) :
  completion_bind (Object_entries (Object_fromEntries m))
                  (fun entries => Normal (new_Map entries))
  = Normal m.
Proof.
  simpl. f_equal.
  rewrite new_Map_list_to_map by apply NoDup_fst_map_to_list.
  apply list_to_map_to_list.
Qed.

Lemma setItem_stores (key value : string) (st st' : Storage) :
  setItem key value st = Normal st' ->
  getItem key st' = Normal (Some value) /\ denied st' = false.
Proof.
  unfold setItem, getItem. destruct (denied st) eqn:Hd; [done|].
  case_match; [|done]. intros [= <-]. simpl.
  by rewrite lookup_insert_eq.
Qed.

(** ** The cache *)

Section CacheProperties.
Context {P : Platform}.

Lemma saveCache_spec (w : World) :
  saveCache w =
  match setItem CACHE_KEY (JSON_stringify (Object_fromEntries (cache w)))
                (localStorage w) with
  | Normal st => (Normal tt, with_localStorage st w)
  | Throw e =>
      (Normal tt, with_console (console w ++ [("Error saving cache:", e)]) w)
  end.
Proof.
  unfold saveCache, try_catch, bind, localStorage_setItem, console_error.
  destruct (setItem _ _ _); reflexivity.
Qed.

Lemma imageUrlCache_set_spec (key : string) (value : jsval) (w : World) :
  imageUrlCache_set key value w =
  saveCache (with_cache (<[key := value]> (cache w)) w).
Proof. reflexivity. Qed.

(** C9. [set(key, value)] returns normally; afterwards the cache maps [key]
    to [value] whatever it held before, every other key as before, and the
    whole new mapping, as one object, has been handed to the storage: when
    the storage takes the write, it holds the serialization of the object
    of all entries of the new mapping under the cache's key and nothing is
    logged; when the write throws, the storage is as before, the cache
    still has the new entry and the failure is on the console. *)
Theorem imageUrlCache_set_write_through (key : string) (value : jsval) (w : World) :
  exists w',
    imageUrlCache_set key value w = (Normal tt, w')
    /\ cache w' = <[key := value]> (cache w)
    /\ cache w' !! key = Some value
    /\ (forall k, k <> key -> cache w' !! k = cache w !! k)
    /\ match setItem CACHE_KEY
               (JSON_stringify (JObj (<[key := value]> (cache w))))
               (localStorage w) with
       | Normal st =>
           localStorage w' = st
           /\ items (localStorage w') !! CACHE_KEY
              = Some (JSON_stringify (JObj (<[key := value]> (cache w))))
           /\ getItem CACHE_KEY (localStorage w')
              = Normal (Some (JSON_stringify (JObj (<[key := value]> (cache w)))))
           /\ console w' = console w
       | Throw e =>
           localStorage w' = localStorage w
           /\ console w' = console w ++ [("Error saving cache:", e)]
       end.
Proof.
  rewrite imageUrlCache_set_spec, saveCache_spec. simpl.
  unfold Object_fromEntries.
  destruct (setItem _ _ _) as [st|e] eqn:Hset; eexists; split; try reflexivity; simpl.
  - apply setItem_stores in Hset as Hstored. destruct Hstored as [Hget Hdenied].
    split_and!; try done.
    + apply lookup_insert_eq.
    + intros k Hk. by rewrite lookup_insert_ne.
    + unfold getItem in Hget. rewrite Hdenied in Hget. by injection Hget.
  - split_and!; try done.
    + apply lookup_insert_eq.
    + intros k Hk. by rewrite lookup_insert_ne.
Qed.

(** The sweep stops at its first call, in every state. *)
Lemma cleanupCache_throws (w : World) :
  cleanupCache w
  = (Throw (TypeError "imageUrlCache.keys is not a function"), w).
Proof. reflexivity. Qed.

(** C1. Two hours after the entry for [a] was cached, a run of the sweep
    ends in a [TypeError] and the entry is still in the cache. *)
Theorem cleanupCache_leaves_expired_entry :
  exists e w',
    cleanupCache stale_world = (Throw e, w')
    /\ cache w' !! "a" = Some (cache_entry "https://signed/a" 0)
    /\ IMAGE_URL_EXPIRATION <= clock stale_world - 0.
Proof.
  rewrite cleanupCache_throws. do 2 eexists. split; [reflexivity|].
  split; [reflexivity|]. vm_compute. discriminate.
Qed.

End CacheProperties.

(** ** Resolving one key *)

Section LoaderProperties.
Context {P : Platform}.
Variable env : Env.

Lemma cache_hit_absent (w : World) (key : string) :
  cache w !! key = None -> cache_hit w key = Normal false.
Proof. unfold cache_hit. by intros ->. Qed.

Lemma cache_hit_entry (w : World) (key : string) (m : gmap string jsval) (t : Z) :
  cache w !! key = Some (JObj m) ->
  m !! "timestamp" = Some (JNum t) ->
  cache_hit w key = Normal (clock w - t <? IMAGE_URL_EXPIRATION).
Proof. unfold cache_hit. intros -> Ht. simpl. by rewrite Ht. Qed.

Lemma getImageUrl_start_spec (key : string) (w : World) :
  getImageUrl_start env key w =
  match cache_hit w key with
  | Throw e => (Throw e, w)
  | Normal true => (Normal (Returned (cached_url w key)), w)
  | Normal false =>
      (Normal (Awaits key),
       with_requests (requests w ++ [signing_request env key]) w)
  end.
Proof.
  unfold getImageUrl_start, cache_hit, cached_url, imageUrlCache_call,
    imageUrlCache_get, Map_get, bind, lift, ret, Date_now.
  simpl.
  destruct (cache w !! key) as [entry|]; [|reflexivity].
  destruct (ToBoolean (Some entry)) eqn:Htruthy; [|reflexivity].
  destruct entry as [|b|n|s|l|m]; try discriminate; simpl;
    try reflexivity.
  destruct (ToNumber (m !! "timestamp")) as [t|e]; simpl; [|reflexivity].
  destruct (number_lt _ _); reflexivity.
Qed.

Lemma getImageUrl_settle_resolved (key u : string) (w : World) :
  outcome (getSignedUrl env (signing_request env key)) = Normal u ->
  getImageUrl_settle env key w =
  (Normal (Some (JStr u)),
   (saveCache
      (with_cache
         (<[key := cache_entry u (clock w + elapsed (getSignedUrl env (signing_request env key)))]>
            (cache w))
         (with_clock (clock w + elapsed (getSignedUrl env (signing_request env key))) w))).2).
Proof.
  intros Hu.
  unfold getImageUrl_settle, try_catch, bind, await, Date_now,
    imageUrlCache_call, ret.
  rewrite Hu. simpl. unfold cache_entry.
  rewrite imageUrlCache_set_spec, !saveCache_spec. simpl.
  destruct (setItem _ _ _); reflexivity.
Qed.

Lemma getImageUrl_settle_rejected (key : string) (e : Error) (w : World) :
  outcome (getSignedUrl env (signing_request env key)) = Throw e ->
  getImageUrl_settle env key w =
  (Normal (Some JNull),
   with_console (console w ++ [("Error getting URL for " +:+ key +:+ ":", e)])
     (with_clock (clock w + elapsed (getSignedUrl env (signing_request env key))) w)).
Proof.
  intros He.
  unfold getImageUrl_settle, try_catch, bind, await, console_error, ret.
  rewrite He. reflexivity.
Qed.

(** The part after the [await] never throws, and its value does not depend
    on the state. *)
Lemma getImageUrl_settle_value (key : string) (w : World) :
  getImageUrl_settle env key w
  = (Normal (signed_url env key), (getImageUrl_settle env key w).2).
Proof.
  unfold signed_url.
  destruct (outcome (getSignedUrl env (signing_request env key))) as [u|e] eqn:Ho.
  - by rewrite (getImageUrl_settle_resolved key u w Ho).
  - by rewrite (getImageUrl_settle_rejected key e w Ho).
Qed.

(** C2. When the cache holds an entry for [key] whose age is below the
    expiration window, [getImageUrl(key)] returns the [url] of that entry
    and changes nothing: no signing request is sent, and cache, storage and
    console are as before. *)
Theorem getImageUrl_cache_hit (key : string) (w : World)
    (m : gmap string jsval) (t : Z) :
  cache w !! key = Some (JObj m) ->
  m !! "timestamp" = Some (JNum t) ->
  clock w - t < IMAGE_URL_EXPIRATION ->
  getImageUrl env key w = (Normal (m !! "url"), w).
Proof.
  intros Hentry Ht Hage.
  unfold getImageUrl, bind.
  rewrite getImageUrl_start_spec, (cache_hit_entry w key m t Hentry Ht).
  assert ((clock w - t <? IMAGE_URL_EXPIRATION) = true) as -> by lia.
  unfold cached_url. by rewrite Hentry.
Qed.

(** C3. When the cache has no entry for [key], or one whose age has reached
    the expiration window, [getImageUrl(key)] sends exactly one signing
    request, for [key] with a validity of 3600 seconds, and returns
    normally; when the signing succeeds with [u], the call returns [u] and
    the cache maps [key] to the object of the two properties [url], the
    text [u], and [timestamp], the number [now], [now] being the clock
    when the signing settled; every other key has the entry it had. *)
Theorem getImageUrl_miss_signs_once (key : string) (w : World) :
  (cache w !! key = None
   \/ exists m t, cache w !! key = Some (JObj m)
                  /\ m !! "timestamp" = Some (JNum t)
                  /\ IMAGE_URL_EXPIRATION <= clock w - t) ->
  exists v w',
    getImageUrl env key w = (Normal v, w')
    /\ requests w' = requests w ++
         [{| cmd_Bucket := BUCKET_NAME env; cmd_Key := key; expiresIn := 3600 |}]
    /\ forall u,
         outcome (getSignedUrl env (signing_request env key)) = Normal u ->
         v = Some (JStr u)
         /\ clock w' = clock w + elapsed (getSignedUrl env (signing_request env key))
         /\ cache w'
            = <[key := JObj (<["url" := JStr u]>
                               (<["timestamp" := JNum (clock w')]> ∅))]>
                (cache w)
         /\ cache w' !! key
            = Some (JObj (<["url" := JStr u]>
                            (<["timestamp" := JNum (clock w')]> ∅)))
         /\ forall k, k <> key -> cache w' !! k = cache w !! k.
Proof.
  intros Hmiss.
  assert (cache_hit w key = Normal false) as Hhit.
  { destruct Hmiss as [Habsent|(m & t & Hentry & Ht & Hage)].
    - by apply cache_hit_absent.
    - rewrite (cache_hit_entry w key m t Hentry Ht). f_equal. lia. }
  unfold getImageUrl, bind.
  rewrite getImageUrl_start_spec, Hhit.
  rewrite getImageUrl_settle_value.
  do 2 eexists. split; [reflexivity|].
  destruct (outcome (getSignedUrl env (signing_request env key))) as [u|e] eqn:Ho.
  - rewrite (getImageUrl_settle_resolved key u _ Ho), saveCache_spec.
    simpl. destruct (setItem _ _ _); simpl; (split; [reflexivity|]);
      intros u' [= <-]; unfold signed_url; rewrite Ho;
      (split_and!; [done|done|reflexivity|apply lookup_insert_eq|]);
      intros k Hk; by rewrite lookup_insert_ne.
  - rewrite (getImageUrl_settle_rejected key e _ Ho). simpl.
    split; [reflexivity|]. intros u' [=].
Qed.

(** C7. When [getImageUrl(key)] finds no usable entry in the cache, so that
    it sends the signing request, and the request is rejected with [e], the
    call returns [null] and throws nothing; the error is on the console,
    and cache and storage are as before. *)
Theorem getImageUrl_signing_failure (key : string) (w : World) (e : Error) :
  cache_hit w key = Normal false ->
  outcome (getSignedUrl env (signing_request env key)) = Throw e ->
  exists w',
    getImageUrl env key w = (Normal (Some JNull), w')
    /\ console w' = console w ++ [("Error getting URL for " +:+ key +:+ ":", e)]
    /\ cache w' = cache w
    /\ localStorage w' = localStorage w
    /\ requests w' = requests w ++ [signing_request env key].
Proof.
  intros Hmiss He.
  unfold getImageUrl, bind.
  rewrite getImageUrl_start_spec, Hmiss.
  rewrite (getImageUrl_settle_rejected key e _ He).
  eexists. split; [reflexivity|]. done.
Qed.

(** ** Sorting *)

Lemma sort_insert_Permutation {A} (compare : A -> A -> Z) (x : A) (l : list A) :
  sort_insert compare x l ≡ₚ x :: l.
Proof.
  induction l as [|y l IH]; simpl; [done|].
  destruct (0 <? compare x y); [|done].
  rewrite IH. apply Permutation_swap.
Qed.

Lemma Array_sort_Permutation {A} (compare : A -> A -> Z) (l : list A) :
  Array_sort compare l ≡ₚ l.
Proof.
  induction l as [|x l IH]; simpl; [done|].
  rewrite sort_insert_Permutation. by f_equiv.
Qed.

Lemma sort_insert_HdRel (x y : ImageRecord) (l : list ImageRecord) :
  newer_first y x -> HdRel newer_first y l ->
  HdRel newer_first y (sort_insert by_lastModified x l).
Proof.
  intros Hyx Hhd. destruct l as [|z l]; simpl.
  - by constructor.
  - destruct (0 <? by_lastModified x z); constructor; [|done].
    by inversion Hhd.
Qed.

Lemma sort_insert_Sorted (x : ImageRecord) (l : list ImageRecord) :
  Sorted newer_first l -> Sorted newer_first (sort_insert by_lastModified x l).
Proof.
  induction 1 as [|y l Hsorted IH Hhd]; simpl.
  - repeat constructor.
  - destruct (0 <? by_lastModified x y) eqn:Hcmp; unfold by_lastModified in Hcmp.
    + constructor; [exact IH|].
      apply sort_insert_HdRel; [|exact Hhd]. unfold newer_first. lia.
    + constructor; [by constructor|].
      constructor. unfold newer_first. lia.
Qed.

Lemma Array_sort_Sorted (l : list ImageRecord) :
  Sorted newer_first (Array_sort by_lastModified l).
Proof.
  induction l as [|x l IH]; simpl; [constructor|].
  by apply sort_insert_Sorted.
Qed.

(** ** One load *)

Lemma cache_hit_requests (r : list SignRequest) (w : World) (key : string) :
  cache_hit (with_requests r w) key = cache_hit w key.
Proof. reflexivity. Qed.

Lemma start_promise_spec (object : S3Object) (w : World) :
  start_promise env object w =
  (Normal (promise_at w object),
   with_requests (requests w ++ issued_at env w object) w).
Proof.
  unfold start_promise, try_catch, bind, ret, promise_at, issued_at.
  rewrite getImageUrl_start_spec.
  destruct (cache_hit w (Key object)) as [[]|e]; simpl;
    rewrite ?app_nil_r; by destruct w.
Qed.

Lemma Array_map_start_promise (contents : list S3Object) (w : World) :
  Array_map contents (start_promise env) w =
  (Normal (promise_at w <$> contents),
   with_requests (requests w ++ concat (issued_at env w <$> contents)) w).
Proof.
  revert w. induction contents as [|object contents IH]; intros w; simpl.
  - unfold ret. rewrite app_nil_r. by destruct w.
  - unfold bind. rewrite start_promise_spec, IH. unfold ret. simpl.
    by rewrite <- app_assoc.
Qed.

Lemma settle_promise_spec (promises : list Promise) (i : nat) (w : World) :
  settle_promise env promises i w =
  (Normal (alter (fulfil env) i promises), (settle_promise env promises i w).2).
Proof.
  unfold settle_promise.
  destruct (promises !! i) as [p|] eqn:Hp.
  - destruct p as [v|e|key]; simpl.
    + unfold ret. f_equal. f_equal. symmetry.
      apply list_eq. intros j. destruct (decide (i = j)) as [<-|Hne].
      * by rewrite list_lookup_alter_eq, Hp.
      * by rewrite list_lookup_alter_ne.
    + unfold ret. f_equal. f_equal. symmetry.
      apply list_eq. intros j. destruct (decide (i = j)) as [<-|Hne].
      * by rewrite list_lookup_alter_eq, Hp.
      * by rewrite list_lookup_alter_ne.
    + unfold bind. rewrite getImageUrl_settle_value. simpl. unfold ret.
      f_equal. f_equal.
      apply list_eq. intros j. destruct (decide (i = j)) as [<-|Hne].
      * rewrite list_lookup_alter_eq, Hp. simpl.
        apply list_lookup_insert_eq. by eapply lookup_lt_Some.
      * by rewrite list_lookup_alter_ne, list_lookup_insert_ne.
  - unfold ret. simpl. f_equal. f_equal. symmetry.
    apply list_eq. intros j. destruct (decide (i = j)) as [<-|Hne].
    + by rewrite list_lookup_alter_eq, Hp.
    + by rewrite list_lookup_alter_ne.
Qed.

Lemma settle_promises_spec (order : list nat) (promises : list Promise) (w : World) :
  settle_promises env promises order w =
  (Normal (foldl (fun ps i => alter (fulfil env) i ps) promises order),
   (settle_promises env promises order w).2).
Proof.
  revert promises w. induction order as [|i order IH]; intros promises w; simpl.
  - reflexivity.
  - unfold bind. rewrite settle_promise_spec.
    rewrite IH. reflexivity.
Qed.

Lemma fulfil_idemp (p : Promise) : fulfil env (fulfil env p) = fulfil env p.
Proof. by destruct p. Qed.

(** Whatever the order, a promise has settled once its index has come up. *)
Lemma settled_lookup (order : list nat) (promises : list Promise) (k : nat) :
  foldl (fun ps i => alter (fulfil env) i ps) promises order !! k
  = if bool_decide (k ∈ order) then fulfil env <$> promises !! k
    else promises !! k.
Proof.
  revert promises. induction order as [|i order IH]; intros promises; simpl.
  - done.
  - rewrite IH. destruct (decide (i = k)) as [->|Hne].
    + rewrite list_lookup_alter_eq.
      rewrite (bool_decide_eq_true_2 (k ∈ k :: order)) by (apply elem_of_cons; left; reflexivity).
      destruct (promises !! k) as [p|]; simpl; [|by case_bool_decide].
      rewrite fulfil_idemp. by case_bool_decide.
    + rewrite list_lookup_alter_ne by done.
      rewrite (bool_decide_ext (k ∈ i :: order) (k ∈ order)); [done|].
      rewrite elem_of_cons. intuition congruence.
Qed.

Lemma settled_all (order : list nat) (promises : list Promise) :
  foldl (fun ps i => alter (fulfil env) i ps) promises
        (order ++ seq 0 (length promises))
  = fulfil env <$> promises.
Proof.
  apply list_eq. intros k. rewrite settled_lookup, list_lookup_fmap.
  case_bool_decide as Hk; [done|].
  destruct (promises !! k) as [p|] eqn:Hp; [|done].
  exfalso. apply Hk. apply elem_of_app. right.
  apply elem_of_seq. apply lookup_lt_Some in Hp. lia.
Qed.

Lemma Promise_all_spec (order : list nat) (promises : list Promise) (w : World) :
  first_rejection promises = None ->
  Promise_all env order promises w =
  (Normal (promise_value <$> (fulfil env <$> promises)),
   (Promise_all env order promises w).2).
Proof.
  intros Hnone. unfold Promise_all. rewrite Hnone.
  unfold bind. rewrite settle_promises_spec, settled_all. reflexivity.
Qed.

Lemma timestamps_convert_cache_hit (w : World) (key : string) :
  timestamps_convert (cache w) -> exists b, cache_hit w key = Normal b.
Proof.
  intros Hconv. unfold cache_hit.
  destruct (cache w !! key) as [entry|] eqn:Hentry; [|by eexists].
  destruct (Hconv key entry Hentry) as [n Hn].
  destruct entry; simpl in *; try (by eexists);
    try (destruct (_ : bool); by eexists).
  rewrite Hn. simpl. by eexists.
Qed.

Lemma promises_resolve (contents : list S3Object) (w : World) :
  timestamps_convert (cache w) ->
  first_rejection (promise_at w <$> contents) = None
  /\ promise_value <$> (fulfil env <$> (promise_at w <$> contents))
     = (fun object => resolved_url env w (Key object)) <$> contents.
Proof.
  intros Hconv. induction contents as [|object contents [IH1 IH2]]; simpl; [done|].
  destruct (timestamps_convert_cache_hit w (Key object) Hconv) as [b Hb].
  assert (promise_at w object
          = if b then Fulfilled (cached_url w (Key object))
            else Pending (Key object)) as ->
    by (unfold promise_at; rewrite Hb; by destruct b).
  assert (resolved_url env w (Key object)
          = if b then cached_url w (Key object)
            else signed_url env (Key object)) as ->
    by (unfold resolved_url; rewrite Hb; by destruct b).
  destruct b; simpl; (split; [exact IH1|by f_equal]).
Qed.

Lemma zip_with_fmap_r {A B C} (f : A -> B -> C) (g : A -> B) (l : list A) :
  zip_with f l (g <$> l) = (fun x => f x (g x)) <$> l.
Proof. induction l; simpl; by f_equal. Qed.

Lemma omap_fmap_id {A B} (g : A -> option B) (l : list A) :
  omap (fun y => y) (g <$> l) = omap g l.
Proof. induction l as [|x l IH]; simpl; [done|]. destruct (g x); by f_equal. Qed.

Lemma image_record_Some (object : S3Object) (u : option jsval) (r : ImageRecord) :
  image_record object u = Some r <->
  exists v, u = Some v /\ ToBoolean (Some v) = true
            /\ r = {| id := Key object; url := v;
                      lastModified := LastModified object |}.
Proof.
  unfold image_record. split.
  - destruct u as [v|]; [|done].
    destruct (ToBoolean (Some v)) eqn:Htruthy; [|done].
    intros [= <-]. by exists v.
  - intros (v & -> & -> & ->). done.
Qed.

(** C4. When the listing call succeeds (and no cached timestamp is beyond
    conversion to a number), [loadImagesFromS3] ends normally, in whatever
    order the signings settle. The images it sets are the records of
    exactly the listed objects whose [getImageUrl] came to a usable URL:
    they are a rearrangement of the records of these objects in listing
    order, an image is among them exactly when it is the record of such an
    object, and no image is older than the one after it. *)
Theorem loadImagesFromS3_newest_first (order : list nat) (w : World)
    (response : ListObjectsV2Output) :
  outcome (send_ListObjectsV2 env (BUCKET_NAME env)) = Normal response ->
  timestamps_convert (cache w) ->
  let contents := default [] (Contents response) in
  let arrival :=
    with_clock (clock w + elapsed (send_ListObjectsV2 env (BUCKET_NAME env))) w in
  exists w',
    loadImagesFromS3 env order w = (Normal tt, w')
    /\ images w' ≡ₚ
       omap (fun object =>
               image_record object (resolved_url env arrival (Key object)))
            contents
    /\ (forall r,
          r ∈ images w' <->
          exists object v,
            object ∈ contents
            /\ resolved_url env arrival (Key object) = Some v
            /\ ToBoolean (Some v) = true
            /\ r = {| id := Key object; url := v;
                      lastModified := LastModified object |})
    /\ Sorted newer_first (images w')
    /\ loading w' = false.
Proof.
  intros Hlist Hconv contents arrival.
  unfold loadImagesFromS3, try_catch, bind, setLoading, await.
  rewrite Hlist. subst contents.
  destruct (Contents response) as [listed|]; simpl default.
  - rewrite Array_map_start_promise.
    set (w1 := with_clock _ (with_loading true w)).
    destruct (promises_resolve listed w1 Hconv) as [Hnone Hvalues].
    rewrite (Promise_all_spec order _ _ Hnone), Hvalues.
    rewrite zip_with_fmap_r, omap_fmap_id.
    eexists. split; [reflexivity|]. simpl.
    assert (Array_sort by_lastModified
              (omap (fun object =>
                       image_record object (resolved_url env w1 (Key object)))
                    listed)
            ≡ₚ omap (fun object =>
                       image_record object
                         (resolved_url env arrival (Key object)))
                    listed) as Hperm by apply Array_sort_Permutation.
    split_and!.
    + exact Hperm.
    + intros r. rewrite Hperm, list_elem_of_omap. split.
      * intros (object & Hin & Hrecord).
        apply image_record_Some in Hrecord as (v & Hv & Htruthy & ->).
        by exists object, v.
      * intros (object & v & Hin & Hv & Htruthy & ->).
        exists object. split; [done|]. apply image_record_Some. by exists v.
    + apply Array_sort_Sorted.
    + reflexivity.
  - eexists. split; [reflexivity|]. simpl. split_and!.
    + done.
    + intros r. split.
      * intros Hin. by apply elem_of_nil in Hin.
      * intros (object & v & Hin & _). by apply elem_of_nil in Hin.
    + constructor.
    + reflexivity.
Qed.

(** C5. When the listing call is rejected with [e], [loadImagesFromS3]
    ends normally: the error is on the console, the loading flag is off,
    no signing request has been sent and the cache is as before, and the
    list of images is the one from before the call. The program calls the
    load from the effect of lines 261-263 only, when the component is
    mounted; the list is empty then (line 69, and nothing but the load
    sets it, lines 232 and 253): from every such state the list after the
    load is the empty list. *)
Theorem loadImagesFromS3_listing_failure (order : list nat) (w : World) (e : Error) :
  outcome (send_ListObjectsV2 env (BUCKET_NAME env)) = Throw e ->
  exists w',
    loadImagesFromS3 env order w = (Normal tt, w')
    /\ console w' = console w ++ [("Error loading images from S3:", e)]
    /\ loading w' = false
    /\ images w' = images w
    /\ (images w = [] -> images w' = [])
    /\ requests w' = requests w
    /\ cache w' = cache w.
Proof.
  intros Hlist.
  unfold loadImagesFromS3, try_catch, bind, setLoading, await, console_error.
  rewrite Hlist. eexists. split; [reflexivity|]. done.
Qed.

Lemma Promise_all_nil (order : list nat) (w : World) :
  Promise_all env order [] w = (Normal [], w).
Proof.
  unfold Promise_all, bind. simpl. rewrite app_nil_r.
  induction order as [|i order IH]; [reflexivity|].
  simpl. unfold bind. simpl. exact IH.
Qed.

(** C8. When the listing succeeds without objects, be it without a
    [Contents] field or with an empty one, [loadImagesFromS3] ends normally
    with an empty list of images, the loading flag off, no signing request
    sent and nothing logged. *)
Theorem loadImagesFromS3_empty_listing (order : list nat) (w : World)
    (response : ListObjectsV2Output) :
  outcome (send_ListObjectsV2 env (BUCKET_NAME env)) = Normal response ->
  Contents response = None \/ Contents response = Some [] ->
  exists w',
    loadImagesFromS3 env order w = (Normal tt, w')
    /\ images w' = []
    /\ requests w' = requests w
    /\ console w' = console w
    /\ loading w' = false.
Proof.
  intros Hlist Hempty.
  unfold loadImagesFromS3, try_catch, bind, setLoading, await.
  rewrite Hlist.
  destruct Hempty as [-> | ->]; simpl; rewrite ?Promise_all_nil;
    eexists; (split; [reflexivity|]); simpl.
  - done.
  - done.
Qed.

End LoaderProperties.

(** ** Construction and persistence *)

Section PersistenceProperties.
Context {P : Platform}.

Lemma loadCache_spec (w : World) :
  loadCache w =
  match getItem CACHE_KEY (localStorage w) with
  | Throw e =>
      (Normal (JObj ∅), with_console (console w ++ [("Error loading cache:", e)]) w)
  | Normal None => (Normal (JObj ∅), w)
  | Normal (Some s) =>
      if String.eqb s "" then (Normal (JObj ∅), w)
      else
        match JSON_parse s with
        | Normal v => (Normal v, w)
        | Throw e =>
            (Normal (JObj ∅),
             with_console (console w ++ [("Error loading cache:", e)]) w)
        end
  end.
Proof.
  unfold loadCache, try_catch, bind, localStorage_getItem, console_error, lift, ret.
  destruct (getItem CACHE_KEY (localStorage w)) as [[s|]|e]; simpl; try reflexivity.
  destruct (String.eqb s ""); simpl; [reflexivity|].
  destruct (JSON_parse s); reflexivity.
Qed.

Lemma createPersistentImageCache_spec (w : World) :
  createPersistentImageCache w =
  match loadCache w with
  | (Normal v, w') =>
      match Object_entries v with
      | Normal entries => (Normal (new_Map entries), w')
      | Throw e => (Throw e, w')
      end
  | (Throw e, w') => (Throw e, w')
  end.
Proof.
  unfold createPersistentImageCache, bind, lift, ret.
  destruct (loadCache w) as [[v|e] w']; [|reflexivity].
  destruct (Object_entries v); reflexivity.
Qed.

(** C6, as the code has it. Constructing the cache
    - from a storage that cannot be read, or from a record that
      [JSON.parse] rejects, gives an empty cache, puts the failure on the
      console and does not throw;
    - from a storage without record, or with the empty text as record,
      gives an empty cache, logs nothing and does not throw;
    - from a record that [JSON.parse] accepts, logs nothing and checks no
      shape: whenever [Object.entries] takes the parsed value, the cache
      holds the entries of that value. *)
Theorem createPersistentImageCache_degrades (w : World) :
  (forall e,
     getItem CACHE_KEY (localStorage w) = Throw e ->
     createPersistentImageCache w
     = (Normal ∅, with_console (console w ++ [("Error loading cache:", e)]) w))
  /\ (forall s e,
        getItem CACHE_KEY (localStorage w) = Normal (Some s) ->
        s <> "" ->
        JSON_parse s = Throw e ->
        createPersistentImageCache w
        = (Normal ∅, with_console (console w ++ [("Error loading cache:", e)]) w))
  /\ (getItem CACHE_KEY (localStorage w) = Normal None
      \/ getItem CACHE_KEY (localStorage w) = Normal (Some "") ->
      createPersistentImageCache w = (Normal ∅, w))
  /\ (forall s v entries,
        getItem CACHE_KEY (localStorage w) = Normal (Some s) ->
        s <> "" ->
        JSON_parse s = Normal v ->
        Object_entries v = Normal entries ->
        createPersistentImageCache w = (Normal (new_Map entries), w)).
Proof.
  rewrite createPersistentImageCache_spec, loadCache_spec.
  split_and!.
  - intros e ->. reflexivity.
  - intros s e -> Hs ->. apply String.eqb_neq in Hs. rewrite Hs. reflexivity.
  - intros [-> | ->]; reflexivity.
  - intros s v entries -> Hs -> Hentries. apply String.eqb_neq in Hs.
    rewrite Hs, Hentries. reflexivity.
Qed.

(** A construction reads nothing but the record: in every state whose
    storage holds the text [s] under the cache's key, it gives the entries
    of the object that [s] parses to, and logs nothing. *)
Lemma createPersistentImageCache_reads (w : World) (s : string)
    (m : gmap string jsval) :
  getItem CACHE_KEY (localStorage w) = Normal (Some s) ->
  s <> "" ->
  JSON_parse s = Normal (JObj m) ->
  createPersistentImageCache w = (Normal m, w).
Proof.
  intros Hget Hnonempty Hparse.
  rewrite createPersistentImageCache_spec, loadCache_spec, Hget.
  apply String.eqb_neq in Hnonempty. rewrite Hnonempty, Hparse.
  pose proof (new_Map_entries_fromEntries m) as Hmap.
  unfold Object_fromEntries in Hmap.
  destruct (Object_entries (JObj m)) as [entries|e]; simpl in Hmap; [|discriminate].
  by injection Hmap as ->.
Qed.

Lemma saveCache_then_construct (w : World) (st : Storage) :
  setItem CACHE_KEY (JSON_stringify (JObj (cache w))) (localStorage w) = Normal st ->
  JSON_parse (JSON_stringify (JObj (cache w))) = Normal (JObj (cache w)) ->
  JSON_stringify (JObj (cache w)) <> "" ->
  saveCache w = (Normal tt, with_localStorage st w)
  /\ forall w0,
       localStorage w0 = st ->
       createPersistentImageCache w0 = (Normal (cache w), w0)
       /\ module_init w0 = (Normal tt, with_cache (cache w) w0).
Proof.
  intros Hset Hcodec Hnonempty. split.
  - rewrite saveCache_spec. unfold Object_fromEntries. by rewrite Hset.
  - intros w0 Hw0.
    assert (createPersistentImageCache w0 = (Normal (cache w), w0)) as Hfresh.
    { apply (createPersistentImageCache_reads w0 (JSON_stringify (JObj (cache w))));
        [|done..].
      rewrite Hw0. by apply setItem_stores in Hset as [-> _]. }
    split; [exact Hfresh|].
    unfold module_init, bind. by rewrite Hfresh.
Qed.

(** C10, as the code has it. For every cache whose serialization the
    engine's [JSON.parse] reads back (as it does for [{url, timestamp}]
    entries): when the storage takes the write of [saveCache], the record
    under the cache's key is the serialization of the whole mapping, and a
    cache constructed afterwards in any state of the page that has this
    storage, whatever that state holds in memory, is the mapping that was
    saved: the construction returns it and logs nothing, and after the
    initialisation of line 54 [get] answers every key with the entry the
    saved mapping had for it. *)
Theorem saveCache_round_trip (w : World) (st : Storage) :
  JSON_parse (JSON_stringify (JObj (cache w))) = Normal (JObj (cache w)) ->
  JSON_stringify (JObj (cache w)) <> "" ->
  setItem CACHE_KEY (JSON_stringify (JObj (cache w))) (localStorage w) = Normal st ->
  saveCache w = (Normal tt, with_localStorage st w)
  /\ items st !! CACHE_KEY = Some (JSON_stringify (JObj (cache w)))
  /\ forall w0,
       localStorage w0 = st ->
       createPersistentImageCache w0 = (Normal (cache w), w0)
       /\ forall key,
            (module_init >> imageUrlCache_get key) w0
            = (Normal (cache w !! key), with_cache (cache w) w0).
Proof.
  intros Hcodec Hnonempty Hset.
  destruct (saveCache_then_construct w st Hset Hcodec Hnonempty) as [Hsave Hfresh].
  split; [exact Hsave|]. split.
  - apply setItem_stores in Hset as [Hget Hdenied].
    unfold getItem in Hget. rewrite Hdenied in Hget. by injection Hget.
  - intros w0 Hw0. destruct (Hfresh w0 Hw0) as [Hconstruct Hinit].
    split; [exact Hconstruct|]. intros key.
    unfold bind. rewrite Hinit. reflexivity.
Qed.

End PersistenceProperties.

(** ** The reference codec reads back what it prints *)

Module ReferenceFacts.
Import Reference.

Lemma chars_app (s1 s2 : string) : chars (s1 +:+ s2) = chars s1 ++ chars s2.
Proof.
  induction s1 as [|c s1 IH]; [reflexivity|].
  simpl. rewrite IH. reflexivity.
Qed.

Lemma append_assoc (s1 s2 s3 : string) : (s1 +:+ s2) +:+ s3 = s1 +:+ (s2 +:+ s3).
Proof.
  induction s1 as [|c s1 IH]; [reflexivity|].
  change (String c ((s1 +:+ s2) +:+ s3) = String c (s1 +:+ (s2 +:+ s3))).
  rewrite IH. reflexivity.
Qed.

(** *** Strings *)

Lemma parse_chars_escape_char (c : ascii) (tail : list ascii) :
  parse_chars (chars (escape_char c) ++ tail)
  = match parse_chars tail with
    | Some (s, r) => Some (String c s, r)
    | None => None
    end.
Proof.
  destruct c as [[] [] [] [] [] [] [] []]; reflexivity.
Qed.

Lemma parse_chars_escape (s : string) (tail : list ascii) :
  parse_chars (chars (escape s) ++ quote :: tail) = Some (s, tail).
Proof.
  induction s as [|c s IH]; [reflexivity|].
  change (escape (String c s)) with (escape_char c +:+ escape s).
  rewrite chars_app, <- app_assoc, parse_chars_escape_char, IH. done.
Qed.

Lemma chars_quoted (s : string) (tail : list ascii) :
  chars (quoted s) ++ tail = quote :: chars (escape s) ++ quote :: tail.
Proof.
  unfold quoted. simpl. rewrite chars_app, <- app_assoc. done.
Qed.


(** *** Numbers *)

Lemma pretty_N_go_app (x : N) (s : string) :
  pretty_N_go x s = pretty_N_go x "" +:+ s.
Proof.
  revert s. induction (N.lt_wf_0 x) as [x _ IH]; intros s.
  destruct (decide (x = 0)%N) as [->|Hx]; [by rewrite !pretty_N_go_0|].
  assert (x `div` 10 < x)%N as Hlt by (apply N.div_lt; lia).
  rewrite !(pretty_N_go_step x) by lia.
  rewrite (IH _ Hlt (String _ s)), (IH _ Hlt (String _ "")).
  by rewrite append_assoc.
Qed.

Lemma pretty_N_char_digit (r : N) :
  (r < 10)%N ->
  is_digit (pretty_N_char r) = true
  /\ digit_value (pretty_N_char r) = Z.of_N r
  /\ (Ascii.eqb (pretty_N_char r) "0" = true -> r = 0%N).
Proof.
  intros Hr.
  assert (r = 0 \/ r = 1 \/ r = 2 \/ r = 3 \/ r = 4 \/ r = 5 \/ r = 6 \/ r = 7
          \/ r = 8 \/ r = 9)%N as Hcases by lia.
  repeat (destruct Hcases as [->|Hcases]); try subst r;
    (split_and!; [reflexivity | reflexivity | by intros [=]]).
Qed.

Lemma digits_pretty_N_go (x : N) (tail : list ascii) (acc : Z) :
  digits (chars (pretty_N_go x "") ++ tail) acc
  = digits tail
      (acc * 10 ^ Z.of_nat (length (chars (pretty_N_go x ""))) + Z.of_N x).
Proof.
  revert tail acc. induction (N.lt_wf_0 x) as [x _ IH]; intros tail acc.
  destruct (decide (x = 0)%N) as [->|Hx].
  { rewrite pretty_N_go_0. simpl. f_equal. lia. }
  rewrite (pretty_N_go_step x) by lia.
  rewrite pretty_N_go_app, chars_app, <- app_assoc.
  rewrite (IH (x `div` 10)%N) by (apply N.div_lt; lia).
  destruct (pretty_N_char_digit (x `mod` 10)%N) as (Hdigit & Hvalue & _);
    [apply N.mod_lt; lia|].
  simpl. rewrite Hdigit, Hvalue. f_equal.
  rewrite length_app. simpl.
  rewrite Nat2Z.inj_add, Z.pow_add_r by lia.
  pose proof (N.div_mod x 10 ltac:(done)) as Hdiv.
  assert (Z.of_N x = 10 * Z.of_N (x `div` 10) + Z.of_N (x `mod` 10)) as -> by lia.
  change (10 ^ Z.of_nat 1) with 10. ring.
Qed.

Lemma digits_stop (tail : list ascii) (acc : Z) :
  stops_number tail = true -> digits tail acc = (acc, tail).
Proof.
  destruct tail as [|d tail]; [done|]. simpl.
  destruct (is_digit d); [discriminate|done].
Qed.

Lemma pretty_N_go_head (x : N) :
  (0 < x)%N ->
  exists c l, chars (pretty_N_go x "") = c :: l
              /\ is_digit c = true /\ Ascii.eqb c "0" = false.
Proof.
  induction (N.lt_wf_0 x) as [x _ IH]; intros Hx.
  rewrite (pretty_N_go_step x) by lia.
  rewrite pretty_N_go_app, chars_app.
  destruct (decide (x `div` 10 = 0)%N) as [Hq|Hq].
  - rewrite Hq, pretty_N_go_0. simpl.
    destruct (pretty_N_char_digit (x `mod` 10)%N) as (Hdigit & _ & Hzero);
      [apply N.mod_lt; lia|].
    eexists _, _. split_and!; [reflexivity|exact Hdigit|].
    destruct (Ascii.eqb _ "0") eqn:Heq; [|done].
    exfalso. pose proof (N.div_mod x 10 ltac:(done)) as Hdiv.
    specialize (Hzero eq_refl). rewrite Hq, Hzero in Hdiv. lia.
  - destruct (IH (x `div` 10)%N) as (c & l & Hl & Hdigit & Hzero);
      [apply N.div_lt; lia | by apply N.neq_0_lt_0 |].
    rewrite Hl. simpl. by eexists _, _.
Qed.

Lemma parse_natural_nonzero (c : ascii) (l : list ascii) :
  is_digit c = true -> Ascii.eqb c "0" = false ->
  parse_natural (c :: l)
  = let '(n, rest) := digits (c :: l) 0 in
    match rest with
    | d :: _ =>
        if Ascii.eqb d "." || Ascii.eqb d "e" || Ascii.eqb d "E"
        then None else Some (n, rest)
    | [] => Some (n, rest)
    end.
Proof. intros Hdigit Hzero. unfold parse_natural. by rewrite Hdigit, Hzero. Qed.

Lemma parse_natural_pretty (x : N) (tail : list ascii) :
  stops_number tail = true ->
  parse_natural (chars (pretty x) ++ tail) = Some (Z.of_N x, tail).
Proof.
  intros Hstop. unfold pretty, pretty_N.
  assert (match tail with
          | d :: _ =>
              if Ascii.eqb d "." || Ascii.eqb d "e" || Ascii.eqb d "E"
              then None else Some (Z.of_N x, tail)
          | [] => Some (Z.of_N x, tail)
          end = Some (Z.of_N x, tail)) as Htail.
  { destruct tail as [|d tail]; [done|]. simpl in Hstop.
    destruct (is_digit d); [discriminate|]. simpl in Hstop.
    by destruct (_ || _). }
  case_decide as Hx.
  - subst x. simpl.
    assert (match tail with d :: _ => is_digit d | [] => false end = false) as ->.
    { destruct tail as [|d tail]; [done|]. simpl in Hstop.
      by destruct (is_digit d). }
    simpl. rewrite (digits_stop tail _ Hstop). exact Htail.
  - destruct (pretty_N_go_head x) as (c & l & Hl & Hdigit & Hzero); [lia|].
    assert (parse_natural (chars (pretty_N_go x "") ++ tail)
            = let '(n, rest) := digits (chars (pretty_N_go x "") ++ tail) 0 in
              match rest with
              | d :: _ =>
                  if Ascii.eqb d "." || Ascii.eqb d "e" || Ascii.eqb d "E"
                  then None else Some (n, rest)
              | [] => Some (n, rest)
              end) as ->.
    { rewrite Hl. apply parse_natural_nonzero; done. }
    rewrite digits_pretty_N_go, (digits_stop tail _ Hstop).
    rewrite Z.mul_0_l, Z.add_0_l. exact Htail.
Qed.

Lemma parse_number_digit (c : ascii) (l : list ascii) :
  is_digit c = true -> parse_number (c :: l) = parse_natural (c :: l).
Proof.
  destruct c as [[] [] [] [] [] [] [] []]; try discriminate; reflexivity.
Qed.

Lemma parse_number_pretty (t : Z) (tail : list ascii) :
  stops_number tail = true ->
  parse_number (chars (pretty t) ++ tail) = Some (t, tail).
Proof.
  intros Hstop. destruct t as [|p|p].
  - etrans; [|exact (parse_natural_pretty 0 tail Hstop)]. reflexivity.
  - change (pretty (Z.pos p)) with (pretty (N.pos p)).
    pose proof (parse_natural_pretty (N.pos p) tail Hstop) as Hnat.
    destruct (pretty_N_go_head (N.pos p)) as (c & l & Hl & Hdigit & _); [lia|].
    assert (chars (pretty (N.pos p)) = c :: l) as Hchars by exact Hl.
    rewrite Hchars in *. simpl app in *.
    rewrite (parse_number_digit c _ Hdigit). exact Hnat.
  - change (pretty (Z.neg p)) with ("-" +:+ pretty (N.pos p)).
    rewrite chars_app, <- app_assoc.
    cbn [String.list_ascii_of_string app]. unfold parse_number.
    rewrite (parse_natural_pretty (N.pos p) tail Hstop). reflexivity.
Qed.

Lemma parse_value_number (fuel : nat) (c : ascii) (l : list ascii) :
  starts_number c = true ->
  parse_value (S fuel) (c :: l)
  = match parse_number (c :: l) with
    | Some (n, rest) => Some (JNum n, rest)
    | None => None
    end.
Proof.
  destruct c as [[] [] [] [] [] [] [] []]; try discriminate; intros _;
    reflexivity.
Qed.

Lemma pretty_Z_head (t : Z) :
  exists c l, chars (pretty t) = c :: l /\ starts_number c = true.
Proof.
  destruct t as [|p|p].
  - by eexists _, _.
  - destruct (pretty_N_go_head (N.pos p)) as (c & l & Hl & Hdigit & _); [lia|].
    exists c, l. split; [exact Hl|]. unfold starts_number. by rewrite Hdigit.
  - change (pretty (Z.neg p)) with ("-" +:+ pretty (N.pos p)).
    rewrite chars_app. by eexists _, _.
Qed.

Lemma parse_value_pretty (fuel : nat) (t : Z) (tail : list ascii) :
  stops_number tail = true ->
  parse_value (S fuel) (chars (pretty t) ++ tail) = Some (JNum t, tail).
Proof.
  intros Hstop.
  pose proof (parse_number_pretty t tail Hstop) as Hnumber.
  destruct (pretty_Z_head t) as (c & l & Hl & Hstart).
  rewrite Hl in *. simpl app in *.
  by rewrite (parse_value_number fuel c _ Hstart), Hnumber.
Qed.

(** *** Objects *)

Lemma stringify_JObj (m : gmap string jsval) :
  stringify (JObj m)
  = "{" +:+ Array_join "," (member_text <$> map_to_list m) +:+ "}".
Proof.
  change (stringify (JObj m))
    with ("{" +:+
          Array_join ","
            (map_fold (fun k x acc => (quoted k +:+ ":" +:+ stringify x) :: acc) [] m)
          +:+ "}").
  rewrite map_fold_foldr. do 3 f_equal.
  induction (map_to_list m) as [|[k x] l IH]; [done|].
  simpl. by rewrite IH.
Qed.

Lemma Array_join_cons (sep p q : string) (ps : list string) :
  Array_join sep (p :: q :: ps) = p +:+ sep +:+ Array_join sep (q :: ps).
Proof.
  unfold Array_join. simpl. revert p q.
  induction ps as [|r ps IH]; intros p q; simpl; [done|].
  rewrite <- IH. f_equal. by rewrite !append_assoc.
Qed.

Lemma parse_value_object (fuel : nat) (l : list ascii) :
  parse_value (S fuel) ("{"%char :: l)
  = match skip_ws l with
    | "}"%char :: rest => Some (JObj ∅, rest)
    | _ =>
        match parse_members fuel ∅ l with
        | Some (m, rest) => Some (JObj m, rest)
        | None => None
        end
    end.
Proof. reflexivity. Qed.

Lemma parse_value_string (fuel : nat) (l : list ascii) :
  parse_value (S fuel) (quote :: l)
  = match parse_chars l with
    | Some (s, rest) => Some (JStr s, rest)
    | None => None
    end.
Proof. reflexivity. Qed.

Lemma parse_members_member (fuel : nat) (acc : gmap string jsval) (l : list ascii) :
  parse_members (S fuel) acc (quote :: l)
  = match parse_chars l with
    | Some (k, rest) =>
        match skip_ws rest with
        | ":"%char :: rest' =>
            match parse_value fuel rest' with
            | Some (v, rest'') =>
                match skip_ws rest'' with
                | ","%char :: rest3 => parse_members fuel (<[k := v]> acc) rest3
                | "}"%char :: rest3 => Some (<[k := v]> acc, rest3)
                | _ => None
                end
            | None => None
            end
        | _ => None
        end
    | None => None
    end.
Proof. reflexivity. Qed.

Lemma member_chars (k : string) (x : jsval) (rest : list ascii) :
  chars (member_text (k, x)) ++ rest
  = quote :: chars (escape k) ++ quote :: ":"%char :: chars (stringify x) ++ rest.
Proof.
  unfold member_text. simpl fst. simpl snd.
  rewrite !chars_app, <- !app_assoc, chars_quoted. reflexivity.
Qed.

Lemma parse_value_members (fuel : nat) (l : list ascii) :
  parse_value (S fuel) ("{"%char :: quote :: l)
  = match parse_members fuel ∅ (quote :: l) with
    | Some (m, rest) => Some (JObj m, rest)
    | None => None
    end.
Proof. reflexivity. Qed.

Lemma skip_ws_comma (l : list ascii) : skip_ws (","%char :: l) = ","%char :: l.
Proof. reflexivity. Qed.

Lemma skip_ws_brace (l : list ascii) : skip_ws ("}"%char :: l) = "}"%char :: l.
Proof. reflexivity. Qed.

(** One member: its key, the colon, and a value that the parser reads. *)
Lemma parse_members_step (fuel : nat) (acc : gmap string jsval)
    (k : string) (x : jsval) (rest : list ascii) :
  parse_value fuel (chars (stringify x) ++ rest) = Some (x, rest) ->
  parse_members (S fuel) acc
    (quote :: chars (escape k) ++ quote :: ":"%char :: chars (stringify x) ++ rest)
  = match skip_ws rest with
    | ","%char :: rest3 => parse_members fuel (<[k := x]> acc) rest3
    | "}"%char :: rest3 => Some (<[k := x]> acc, rest3)
    | _ => None
    end.
Proof.
  intros Hvalue.
  rewrite parse_members_member, parse_chars_escape.
  change (skip_ws (":"%char :: chars (stringify x) ++ rest))
    with (":"%char :: chars (stringify x) ++ rest).
  cbv beta iota. by rewrite Hvalue.
Qed.

Lemma parse_value_quoted (fuel : nat) (s : string) (rest : list ascii) :
  parse_value (S fuel) (chars (stringify (JStr s)) ++ rest) = Some (JStr s, rest).
Proof.
  change (stringify (JStr s)) with (quoted s).
  by rewrite chars_quoted, parse_value_string, parse_chars_escape.
Qed.

Lemma parse_value_cache_entry (fuel : nat) (u : string) (t : Z) (rest : list ascii) :
  (4 <= fuel)%nat ->
  parse_value fuel (chars (stringify (cache_entry u t)) ++ rest)
  = Some (cache_entry u t, rest).
Proof.
  intros Hfuel.
  do 4 (destruct fuel as [|fuel]; [lia|]). clear Hfuel.
  assert (chars (stringify (cache_entry u t)) ++ rest
          = "{"%char :: quote :: chars (escape "url") ++ quote :: ":"%char ::
            chars (stringify (JStr u)) ++ ","%char ::
            quote :: chars (escape "timestamp") ++ quote :: ":"%char ::
            chars (stringify (JNum t)) ++ "}"%char :: rest) as ->.
  { unfold cache_entry. rewrite stringify_JObj.
    assert (map_to_list (<["url" := JStr u]> (<["timestamp" := JNum t]> ∅))
            = [("url", JStr u); ("timestamp", JNum t)]) as ->
      by (vm_compute; reflexivity).
    change (member_text <$> [("url", JStr u); ("timestamp", JNum t)])
      with [member_text ("url", JStr u); member_text ("timestamp", JNum t)].
    rewrite Array_join_cons.
    change (Array_join "," [member_text ("timestamp", JNum t)])
      with (member_text ("timestamp", JNum t)).
    rewrite !chars_app, <- !app_assoc, !member_chars. reflexivity. }
  rewrite parse_value_members.
  rewrite (parse_members_step (S (S fuel)) ∅ "url" (JStr u));
    [|apply parse_value_quoted].
  rewrite skip_ws_comma. cbv beta iota.
  rewrite (parse_members_step (S fuel) _ "timestamp" (JNum t));
    [|apply parse_value_pretty; reflexivity].
  rewrite skip_ws_brace. cbv beta iota.
  unfold cache_entry. do 2 f_equal; try by apply insert_commute.
Qed.

Lemma parse_members_entries (l : list (string * jsval)) (fuel : nat)
    (acc : gmap string jsval) (tail : list ascii) :
  l <> [] ->
  Forall (fun kx => exists u t, kx.2 = cache_entry u t) l ->
  parse_members (length l + (4 + fuel)) acc
    (chars (Array_join "," (member_text <$> l)) ++ "}"%char :: tail)
  = Some (foldl (fun m kv => <[kv.1 := kv.2]> m) acc l, tail).
Proof.
  revert acc. induction l as [|[k x] l IH]; intros acc Hne Hshape; [done|].
  apply Forall_cons in Hshape as [(u & t & Hx) Hshape]. simpl in Hx. subst x.
  change (length ((k, cache_entry u t) :: l) + (4 + fuel))%nat
    with (S (length l + (4 + fuel))).
  destruct l as [|kx' l].
  - change (Array_join "," (member_text <$> [(k, cache_entry u t)]))
      with (member_text (k, cache_entry u t)).
    rewrite member_chars.
    rewrite parse_members_step by (apply parse_value_cache_entry; simpl; lia).
    rewrite skip_ws_brace. reflexivity.
  - change (member_text <$> (k, cache_entry u t) :: kx' :: l)
      with (member_text (k, cache_entry u t) :: member_text kx'
            :: (member_text <$> l)).
    rewrite Array_join_cons, !chars_app, <- !app_assoc, member_chars.
    rewrite parse_members_step by (apply parse_value_cache_entry; simpl; lia).
    change (chars "," ++ ?rest) with (","%char :: rest).
    rewrite skip_ws_comma. cbv beta iota.
    change (member_text kx' :: (member_text <$> l))
      with (member_text <$> kx' :: l).
    rewrite IH; [reflexivity | done | exact Hshape].
Qed.

Lemma length_Array_join (parts : list string) :
  (length parts <= S (length (chars (Array_join "," parts))))%nat.
Proof.
  induction parts as [|p [|q parts] IH]; [simpl; lia | simpl; lia |].
  rewrite Array_join_cons, !chars_app, !length_app.
  simpl length in *. lia.
Qed.

(** The reference parser reads back every mapping of such entries. *)
Lemma parse_stringify_cache (m : gmap string jsval) :
  well_shaped m ->
  parse (stringify (JObj m)) = Normal (JObj m).
Proof.
  intros Hshape. unfold parse. rewrite stringify_JObj.
  destruct (map_to_list m) as [|kx l] eqn:Hl.
  - apply map_to_list_empty_iff in Hl as ->. vm_compute. reflexivity.
  - rewrite !chars_app.
    change (chars "{" ++ ?rest) with ("{"%char :: rest).
    change (chars "}") with ["}"%char].
    set (text := chars (Array_join "," (member_text <$> kx :: l))).
    assert (exists fuel,
              (2 * length ("{"%char :: text ++ ["}"%char]) + 2
               = S (length (kx :: l) + (4 + fuel)))%nat) as [fuel ->].
    { pose proof (length_Array_join (member_text <$> kx :: l)) as Hlen.
      rewrite length_fmap in Hlen. fold text in Hlen.
      exists (2 * length ("{"%char :: text ++ ["}"%char]) + 2
              - S (length (kx :: l) + 4))%nat.
      simpl length in *. rewrite length_app. simpl length. lia. }
    assert (exists text', text = quote :: text') as [text' Htext].
    { unfold text. destruct kx as [k x]. destruct l as [|kx' l].
      - change (Array_join "," (member_text <$> [(k, x)]))
          with (member_text (k, x)).
        rewrite <- (app_nil_r (chars _)), member_chars. by eexists.
      - change (member_text <$> (k, x) :: kx' :: l)
          with (member_text (k, x) :: member_text kx' :: (member_text <$> l)).
        rewrite Array_join_cons, chars_app, member_chars. by eexists. }
    rewrite Htext. simpl app. rewrite parse_value_members.
    change (quote :: text' ++ ["}"%char]) with ((quote :: text') ++ ["}"%char]).
    rewrite <- Htext. unfold text.
    rewrite parse_members_entries.
    + rewrite <- Hl. cbv beta iota.
      change (skip_ws []) with (@nil ascii). cbv beta iota. do 2 f_equal.
      change (foldl _ ∅ (map_to_list m)) with (new_Map (map_to_list m)).
      rewrite new_Map_list_to_map by apply NoDup_fst_map_to_list.
      apply list_to_map_to_list.
    + done.
    + rewrite <- Hl. apply Forall_forall. intros [k x] Hin.
      apply elem_of_map_to_list in Hin. exact (Hshape k x Hin).
Qed.

Lemma reference_codec_reads_back : codec_reads_back engine.
Proof.
  intros m Hshape. split.
  - by apply parse_stringify_cache.
  - change (JSON_stringify (Object_fromEntries m)) with (stringify (JObj m)).
    rewrite stringify_JObj. discriminate.
Qed.

End ReferenceFacts.

(** * The program on the reference engine *)

(** The scenarios of the specification: all three signings succeed; the
    signing of [b] fails. *)
Example loadImagesFromS3_three_photos :
  images (loadImagesFromS3 (P := Reference.engine) (store three_photos []) [] initial_world).2
  = [signed_image photo_b; signed_image photo_a; signed_image photo_c].
Proof. vm_compute. reflexivity. Qed.

Example loadImagesFromS3_b_fails :
  images (loadImagesFromS3 (P := Reference.engine) (store three_photos ["b"]) [2%nat; 0%nat]
            initial_world).2
  = [signed_image photo_a; signed_image photo_c].
Proof. vm_compute. reflexivity. Qed.

(** A record that is there, ten seconds old: no signing. Four thousand
    seconds old: one signing. *)
Example getImageUrl_ten_seconds :
  getImageUrl (P := Reference.engine) (store three_photos []) "a" fresh_world
  = (Normal (Some (JStr "https://signed/a")), fresh_world).
Proof. vm_compute. reflexivity. Qed.

Example getImageUrl_four_thousand_seconds :
  requests (getImageUrl (P := Reference.engine) (store three_photos []) "a"
              (with_clock 4000000 fresh_world)).2
  = [{| cmd_Bucket := "photos"; cmd_Key := "a"; expiresIn := 3600 |}].
Proof. vm_compute. reflexivity. Qed.

(** What a persisted record turns into: the text that [saveCache] wrote
    gives the cache back; an array gives its indices as keys; [null] stops
    the construction with a [TypeError]. *)
Example createPersistentImageCache_saved_record :
  createPersistentImageCache (P := Reference.engine)
    (persisted (Reference.stringify (Object_fromEntries (cache unsaved_world))))
  = (Normal (cache unsaved_world),
     persisted (Reference.stringify (Object_fromEntries (cache unsaved_world)))).
Proof. vm_compute. reflexivity. Qed.

Example createPersistentImageCache_array_record :
  createPersistentImageCache (P := Reference.engine) (persisted "[7]")
  = (Normal {[ "0" := JNum 7 ]}, persisted "[7]").
Proof. vm_compute. reflexivity. Qed.

Example createPersistentImageCache_null_record :
  createPersistentImageCache (P := Reference.engine) (persisted "null")
  = (Throw (TypeError "Cannot convert undefined or null to object"),
     persisted "null").
Proof. vm_compute. reflexivity. Qed.

(** A storage that is full: [set] keeps the entry in memory and logs. *)
Example imageUrlCache_set_quota_exceeded :
  let full :=
    with_localStorage {| items := ∅; denied := false; quota := 10 |} initial_world in
  exists w',
    imageUrlCache_set (P := Reference.engine) "a" (cache_entry "https://signed/a" 5)
      full = (Normal tt, w')
    /\ cache w' !! "a" = Some (cache_entry "https://signed/a" 5)
    /\ items (localStorage w') = ∅
    /\ console w' = [("Error saving cache:", QuotaExceededError)].
Proof. eexists. split; [vm_compute; reflexivity|]. split_and!; reflexivity. Qed.

(** The sort keeps the listing order of images of the same date. *)
Example Array_sort_stable :
  Array_sort by_lastModified
    [ {| id := "x"; url := JNull; lastModified := 7 |};
      {| id := "y"; url := JNull; lastModified := 9 |};
      {| id := "z"; url := JNull; lastModified := 7 |} ]
  = [ {| id := "y"; url := JNull; lastModified := 9 |};
      {| id := "x"; url := JNull; lastModified := 7 |};
      {| id := "z"; url := JNull; lastModified := 7 |} ].
Proof. reflexivity. Qed.

(** *** Instances of the theorems *)

Lemma getImageUrl_cache_hit_witness :
  cache fresh_world !! "a" = Some (cache_entry "https://signed/a" 0)
  /\ (<["url" := JStr "https://signed/a"]> (<["timestamp" := JNum 0]> ∅)
        : gmap string jsval) !! "timestamp" = Some (JNum 0)
  /\ clock fresh_world - 0 < IMAGE_URL_EXPIRATION
  /\ getImageUrl (P := Reference.engine) (store three_photos []) "a" fresh_world
     = (Normal (Some (JStr "https://signed/a")), fresh_world).
Proof.
  split_and!; [reflexivity | reflexivity | reflexivity |].
  exact (getImageUrl_cache_hit (P := Reference.engine) (store three_photos []) "a"
           fresh_world
           (<["url" := JStr "https://signed/a"]> (<["timestamp" := JNum 0]> ∅)) 0
           eq_refl eq_refl eq_refl).
Defined.

Lemma getImageUrl_miss_signs_once_witness :
  IMAGE_URL_EXPIRATION <= clock stale_world - 0
  /\ exists v w',
       getImageUrl (P := Reference.engine) (store three_photos []) "a" stale_world
       = (Normal v, w')
       /\ requests w' = requests stale_world ++
            [{| cmd_Bucket := "photos"; cmd_Key := "a"; expiresIn := 3600 |}]
       /\ forall u,
            outcome (getSignedUrl (store three_photos [])
                       (signing_request (store three_photos []) "a")) = Normal u ->
            v = Some (JStr u)
            /\ clock w' = clock stale_world + 5
            /\ cache w'
               = <["a" := JObj (<["url" := JStr u]>
                                  (<["timestamp" := JNum (clock w')]> ∅))]>
                   (cache stale_world)
            /\ cache w' !! "a"
               = Some (JObj (<["url" := JStr u]>
                               (<["timestamp" := JNum (clock w')]> ∅)))
            /\ forall k, k <> "a" -> cache w' !! k = cache stale_world !! k.
Proof.
  split; [vm_compute; discriminate|].
  apply (getImageUrl_miss_signs_once (P := Reference.engine) (store three_photos []) "a"
           stale_world).
  right.
  exists (<["url" := JStr "https://signed/a"]> (<["timestamp" := JNum 0]> ∅)), 0.
  split_and!; [reflexivity | reflexivity | vm_compute; discriminate].
Defined.

Lemma getImageUrl_signing_failure_witness :
  cache_hit (P := Reference.engine) initial_world "b" = Normal false
  /\ outcome (getSignedUrl (store three_photos ["b"])
                (signing_request (store three_photos ["b"]) "b"))
     = Throw NetworkError
  /\ exists w',
       getImageUrl (P := Reference.engine) (store three_photos ["b"]) "b" initial_world
       = (Normal (Some JNull), w')
       /\ console w' = console initial_world
                       ++ [("Error getting URL for " +:+ "b" +:+ ":", NetworkError)]
       /\ cache w' = cache initial_world
       /\ localStorage w' = localStorage initial_world
       /\ requests w' = requests initial_world
                        ++ [signing_request (store three_photos ["b"]) "b"].
Proof.
  split; [reflexivity|]. split; [reflexivity|].
  apply (getImageUrl_signing_failure (P := Reference.engine)
           (store three_photos ["b"]) "b" initial_world NetworkError);
    reflexivity.
Defined.

Lemma loadImagesFromS3_newest_first_witness :
  timestamps_convert (P := Reference.engine) (cache initial_world)
  /\ exists w',
       loadImagesFromS3 (P := Reference.engine) (store three_photos ["b"]) []
         initial_world = (Normal tt, w')
       /\ images w' ≡ₚ
          omap (fun object =>
                  image_record object
                    (resolved_url (P := Reference.engine) (store three_photos ["b"])
                       (with_clock (clock initial_world + 120) initial_world)
                       (Key object)))
               [photo_a; photo_b; photo_c]
       /\ (forall r,
             r ∈ images w' <->
             exists object v,
               object ∈ [photo_a; photo_b; photo_c]
               /\ resolved_url (P := Reference.engine) (store three_photos ["b"])
                    (with_clock (clock initial_world + 120) initial_world)
                    (Key object) = Some v
               /\ ToBoolean (Some v) = true
               /\ r = {| id := Key object; url := v;
                         lastModified := LastModified object |})
       /\ Sorted newer_first (images w')
       /\ loading w' = false.
Proof.
  assert (timestamps_convert (P := Reference.engine) (cache initial_world)) as Hconv.
  { intros key entry Hentry. exfalso. revert Hentry. simpl.
    rewrite lookup_empty. discriminate. }
  split; [exact Hconv|].
  apply (loadImagesFromS3_newest_first (P := Reference.engine)
           (store three_photos ["b"]) [] initial_world
           {| Contents := Some [photo_a; photo_b; photo_c] |});
    [reflexivity | exact Hconv].
Defined.

Lemma loadImagesFromS3_listing_failure_witness :
  outcome (send_ListObjectsV2 (store (Throw NetworkError) []) "photos")
  = Throw NetworkError
  /\ exists w',
       loadImagesFromS3 (P := Reference.engine) (store (Throw NetworkError) []) []
         initial_world = (Normal tt, w')
       /\ console w' = console initial_world
                       ++ [("Error loading images from S3:", NetworkError)]
       /\ loading w' = false
       /\ images w' = images initial_world
       /\ (images initial_world = [] -> images w' = [])
       /\ requests w' = requests initial_world
       /\ cache w' = cache initial_world.
Proof.
  split; [reflexivity|].
  apply (loadImagesFromS3_listing_failure (P := Reference.engine)
           (store (Throw NetworkError) []) [] initial_world NetworkError).
  reflexivity.
Defined.

Lemma loadImagesFromS3_empty_listing_witness :
  (Contents {| Contents := None |} = None
   \/ Contents {| Contents := None |} = Some [])
  /\ exists w',
       loadImagesFromS3 (P := Reference.engine)
         (store (Normal {| Contents := None |}) []) [] initial_world
       = (Normal tt, w')
       /\ images w' = []
       /\ requests w' = requests initial_world
       /\ console w' = console initial_world
       /\ loading w' = false.
Proof.
  split; [left; reflexivity|].
  apply (loadImagesFromS3_empty_listing (P := Reference.engine)
           (store (Normal {| Contents := None |}) []) [] initial_world
           {| Contents := None |}); [reflexivity | left; reflexivity].
Defined.

Lemma createPersistentImageCache_degrades_witness :
  getItem CACHE_KEY (localStorage (persisted "{oops")) = Normal (Some "{oops")
  /\ "{oops" <> ""
  /\ @JSON_parse Reference.engine "{oops" = Throw Reference.SyntaxError
  /\ createPersistentImageCache (P := Reference.engine) (persisted "{oops")
     = (Normal ∅,
        with_console [("Error loading cache:", Reference.SyntaxError)]
          (persisted "{oops")).
Proof.
  split_and!; [reflexivity | discriminate | reflexivity |].
  apply (proj1 (proj2 (createPersistentImageCache_degrades (P := Reference.engine)
                         (persisted "{oops")))
           "{oops" Reference.SyntaxError);
    [reflexivity | discriminate | reflexivity].
Defined.

Lemma well_shaped_unsaved_world : well_shaped (cache unsaved_world).
Proof.
  intros k x Hx. simpl in Hx.
  apply lookup_insert_Some in Hx as [[_ <-]|[_ Hx]]; [by eexists _, _|].
  apply lookup_insert_Some in Hx as [[_ <-]|[_ Hx]]; [by eexists _, _|].
  by rewrite lookup_empty in Hx.
Qed.

Lemma saveCache_round_trip_witness :
  @JSON_parse Reference.engine
    (@JSON_stringify Reference.engine (JObj (cache unsaved_world)))
  = Normal (JObj (cache unsaved_world))
  /\ @JSON_stringify Reference.engine (JObj (cache unsaved_world)) <> ""
  /\ exists st,
       setItem CACHE_KEY
         (@JSON_stringify Reference.engine (JObj (cache unsaved_world)))
         (localStorage unsaved_world) = Normal st
       /\ saveCache (P := Reference.engine) unsaved_world
          = (Normal tt, with_localStorage st unsaved_world)
       /\ items st !! CACHE_KEY
          = Some (@JSON_stringify Reference.engine (JObj (cache unsaved_world)))
       /\ forall w0,
            localStorage w0 = st ->
            createPersistentImageCache (P := Reference.engine) w0
            = (Normal (cache unsaved_world), w0)
            /\ forall key,
                 (module_init (P := Reference.engine) >> imageUrlCache_get key) w0
                 = (Normal (cache unsaved_world !! key),
                    with_cache (cache unsaved_world) w0).
Proof.
  destruct (ReferenceFacts.reference_codec_reads_back (cache unsaved_world)
              well_shaped_unsaved_world) as [Hreads Hnonempty].
  split; [exact Hreads|]. split; [exact Hnonempty|].
  assert (exists st,
            setItem CACHE_KEY
              (@JSON_stringify Reference.engine (JObj (cache unsaved_world)))
              (localStorage unsaved_world) = Normal st) as [st Hset]
    by (eexists; vm_compute; reflexivity).
  exists st. split; [exact Hset|].
  exact (saveCache_round_trip (P := Reference.engine) unsaved_world st
           Hreads Hnonempty Hset).
Defined.

(** On the reference engine the round trip needs the storage only, for
    every cache of [{url, timestamp}] entries. *)
Corollary reference_round_trip (w : World) (st : Storage) :
  well_shaped (cache w) ->
  setItem CACHE_KEY (@JSON_stringify Reference.engine (JObj (cache w)))
          (localStorage w) = Normal st ->
  saveCache (P := Reference.engine) w = (Normal tt, with_localStorage st w)
  /\ forall w0,
       localStorage w0 = st ->
       createPersistentImageCache (P := Reference.engine) w0
       = (Normal (cache w), w0).
Proof.
  intros Hshape Hset.
  destruct (ReferenceFacts.reference_codec_reads_back (cache w) Hshape)
    as [Hreads Hnonempty].
  destruct (saveCache_then_construct (P := Reference.engine) w st
              Hset Hreads Hnonempty) as [Hsave Hfresh].
  split; [exact Hsave|]. intros w0 Hw0. by destruct (Hfresh w0 Hw0).
Qed.

(** *** Where the specification and the program part *)

(** C6. Without a persisted record the construction logs nothing; the
    record [null] makes it throw; the record [[7]] gives a cache with an
    entry. *)
Lemma createPersistentImageCache_counterexample :
  ~ (exists c w',
       createPersistentImageCache (P := Reference.engine) initial_world = (Normal c, w')
       /\ console w' <> console initial_world)
  /\ ~ (exists c w',
          createPersistentImageCache (P := Reference.engine) (persisted "null")
          = (Normal c, w'))
  /\ ~ (exists w',
          createPersistentImageCache (P := Reference.engine) (persisted "[7]")
          = (Normal ∅, w')).
Proof.
  split_and!.
  - intros (c & w' & Hrun & Hlog). vm_compute in Hrun.
    injection Hrun as _ <-. by apply Hlog.
  - intros (c & w' & Hrun). vm_compute in Hrun. discriminate Hrun.
  - intros (w' & Hrun). vm_compute in Hrun. discriminate Hrun.
Qed.

(** C10. A storage without room for the record: [saveCache] returns
    normally all the same, and a cache constructed from that storage
    afterwards is not the mapping that was to be saved, a mapping of
    [{url, timestamp}] entries though it is. *)
Lemma saveCache_round_trip_counterexample :
  well_shaped (cache full_storage_world)
  /\ (exists w1,
        saveCache (P := Reference.engine) full_storage_world = (Normal tt, w1))
  /\ ~ (exists w1 w2,
          saveCache (P := Reference.engine) full_storage_world = (Normal tt, w1)
          /\ createPersistentImageCache (P := Reference.engine) w1
             = (Normal (cache full_storage_world), w2)).
Proof.
  split_and!.
  - exact well_shaped_unsaved_world.
  - eexists. vm_compute. reflexivity.
  - intros (w1 & w2 & Hsave & Hfresh).
    vm_compute in Hsave. injection Hsave as <-.
    vm_compute in Hfresh. discriminate Hfresh.
Qed.


(** * Further properties *)

(** ** What signing and saving leave alone *)

Lemma only_caches_refl (w : World) : only_caches w w.
Proof. unfold only_caches. split_and!; auto. Qed.

Lemma only_caches_trans (w1 w2 w3 : World) :
  only_caches w1 w2 -> only_caches w2 w3 -> only_caches w1 w3.
Proof.
  intros (Hr1 & Hi1 & Hl1 & Hd1 & Hq1 & Hs1 & Hc1 & Hw1)
         (Hr2 & Hi2 & Hl2 & Hd2 & Hq2 & Hs2 & Hc2 & Hw2).
  unfold only_caches. split_and!; try congruence; auto.
  intros k Hk. rewrite Hs2, Hs1; auto.
Qed.

Lemma setItem_keeps (key value : string) (st st' : Storage) :
  setItem key value st = Normal st' ->
  denied st' = denied st
  /\ quota st' = quota st
  /\ forall k, k <> key -> items st' !! k = items st !! k.
Proof.
  unfold setItem. destruct (denied st) eqn:Hd; [done|].
  case_match; [|done]. intros [= <-]. simpl. split_and!; try done.
  intros k Hk. by rewrite lookup_insert_ne.
Qed.

Lemma well_shaped_insert (m : gmap string jsval) (key u : string) (t : Z) :
  well_shaped m -> well_shaped (<[key := cache_entry u t]> m).
Proof.
  intros Hshape k x. destruct (decide (k = key)) as [->|Hne].
  - rewrite lookup_insert_eq. intros [= <-]. by exists u, t.
  - rewrite lookup_insert_ne by done. apply Hshape.
Qed.

Section Keeps.
Context {P : Platform}.
Variable env : Env.

Lemma saveCache_only_caches (w : World) : only_caches w (saveCache w).2.
Proof.
  rewrite saveCache_spec.
  destruct (setItem _ _ _) as [st|e] eqn:Hset; simpl.
  - apply setItem_keeps in Hset as (Hd & Hq & Hs).
    unfold only_caches. simpl. split_and!; auto.
  - unfold only_caches. simpl. split_and!; auto.
Qed.

Lemma getImageUrl_settle_only_caches (key : string) (w : World) :
  only_caches w (getImageUrl_settle env key w).2.
Proof.
  destruct (outcome (getSignedUrl env (signing_request env key))) as [u|e] eqn:Ho.
  - rewrite (getImageUrl_settle_resolved env key u w Ho). simpl.
    eapply only_caches_trans; [|apply saveCache_only_caches].
    unfold only_caches. simpl. split_and!; auto.
    + intros k Hk. destruct (decide (k = key)) as [->|Hne].
      * rewrite lookup_insert_eq. by eexists.
      * by rewrite lookup_insert_ne.
    + apply well_shaped_insert.
  - rewrite (getImageUrl_settle_rejected env key e w Ho). simpl.
    unfold only_caches. simpl. split_and!; auto.
Qed.

Lemma settle_promise_only_caches (promises : list Promise) (i : nat) (w : World) :
  only_caches w (settle_promise env promises i w).2.
Proof.
  unfold settle_promise.
  destruct (promises !! i) as [[v|e|key]|]; try apply only_caches_refl.
  unfold bind. rewrite getImageUrl_settle_value. simpl.
  apply getImageUrl_settle_only_caches.
Qed.

Lemma settle_promises_only_caches (order : list nat) (promises : list Promise)
    (w : World) :
  only_caches w (settle_promises env promises order w).2.
Proof.
  revert promises w. induction order as [|i order IH]; intros promises w; simpl.
  - apply only_caches_refl.
  - unfold bind. rewrite settle_promise_spec.
    eapply only_caches_trans; [apply (settle_promise_only_caches promises i)|].
    apply IH.
Qed.

Lemma Promise_all_only_caches (order : list nat) (promises : list Promise)
    (w : World) :
  only_caches w (Promise_all env order promises w).2.
Proof.
  unfold Promise_all. destruct (first_rejection promises).
  - apply only_caches_refl.
  - unfold bind. rewrite settle_promises_spec. simpl.
    apply settle_promises_only_caches.
Qed.

(** Promises that are all fulfilled already: nothing is left to settle. *)
Lemma settle_promises_fulfilled (order : list nat) (promises : list Promise)
    (w : World) :
  Forall (fun p => exists v, p = Fulfilled v) promises ->
  settle_promises env promises order w = (Normal promises, w).
Proof.
  intros Hall. induction order as [|i order IH]; simpl; [reflexivity|].
  unfold bind, settle_promise.
  destruct (promises !! i) as [p|] eqn:Hp; [|exact IH].
  apply (Forall_lookup_1 _ _ _ _ Hall) in Hp as [v ->]. exact IH.
Qed.

Lemma getImageUrl_spec (key : string) (w : World) :
  getImageUrl env key w =
  match cache_hit w key with
  | Throw e => (Throw e, w)
  | Normal true => (Normal (cached_url w key), w)
  | Normal false =>
      getImageUrl_settle env key
        (with_requests (requests w ++ [signing_request env key]) w)
  end.
Proof.
  unfold getImageUrl, bind. rewrite getImageUrl_start_spec.
  by destruct (cache_hit w key) as [[]|e].
Qed.

End Keeps.

(** ** More on resolving one key *)

Section Resolving.
Context {P : Platform}.
Variable env : Env.

Lemma cache_hit_throws (w : World) (key : string) (e : Error) :
  cache_hit w key = Throw e <->
  exists entry,
    cache w !! key = Some entry
    /\ ToBoolean (Some entry) = true
    /\ ToNumber (get_property entry "timestamp") = Throw e.
Proof.
  unfold cache_hit. destruct (cache w !! key) as [entry|].
  - destruct (ToBoolean (Some entry)) eqn:Htruthy.
    + assert (read_property (Some entry) "timestamp"
              = Normal (get_property entry "timestamp")) as ->
        by (by destruct entry).
      unfold completion_bind at 1. split.
      * intros Hthrow. exists entry. split_and!; [done..|].
        destruct (ToNumber (get_property entry "timestamp")); [done|].
        simpl in Hthrow. by injection Hthrow as ->.
      * intros (entry' & [= <-] & _ & ->). done.
    + split; [done|]. intros (entry' & [= <-] & Htrue & _). congruence.
  - split; [done|]. by intros (entry' & [=] & _).
Qed.

Lemma cache_hit_unusable (w : World) (key : string) :
  ToNumber (cache w !! key ≫= fun entry => get_property entry "timestamp")
  = Normal NaN ->
  cache_hit w key = Normal false.
Proof.
  unfold cache_hit. destruct (cache w !! key) as [entry|]; [|done].
  intros Hnan. destruct (ToBoolean (Some entry)) eqn:Htruthy; [|done].
  assert (read_property (Some entry) "timestamp"
          = Normal (get_property entry "timestamp")) as ->
    by (by destruct entry).
  unfold completion_bind at 1. simpl in Hnan. by rewrite Hnan.
Qed.

(** A miss whose signing succeeds, in full. *)
Lemma getImageUrl_signed (key u : string) (w : World) :
  cache_hit w key = Normal false ->
  outcome (getSignedUrl env (signing_request env key)) = Normal u ->
  exists w',
    getImageUrl env key w = (Normal (Some (JStr u)), w')
    /\ clock w' = clock w + elapsed (getSignedUrl env (signing_request env key))
    /\ cache w' = <[key := cache_entry u (clock w')]> (cache w)
    /\ requests w' = requests w ++ [signing_request env key]
    /\ forall st,
         setItem CACHE_KEY
           (JSON_stringify
              (Object_fromEntries
                 (<[key := cache_entry u
                             (clock w + elapsed (getSignedUrl env (signing_request env key)))]>
                    (cache w))))
           (localStorage w) = Normal st ->
         localStorage w' = st /\ console w' = console w.
Proof.
  intros Hmiss Hu.
  rewrite getImageUrl_spec, Hmiss, (getImageUrl_settle_resolved env key u _ Hu).
  eexists. split; [reflexivity|].
  rewrite saveCache_spec. simpl.
  destruct (setItem _ _ _) as [st|e]; simpl; split_and!; try done.
  by intros st' [= <-].
Qed.

(** X1. [getImageUrl(key)] rejects in one case only: the cache holds a
    truthy entry for [key] whose [timestamp] cannot be converted to a
    number (an object with a property [toString] of its own, which a
    persisted record can contain). The error is that of the conversion, and
    the call has changed nothing by then. Neither the signing service nor
    the storage can make the call reject. *)
Theorem getImageUrl_rejects_iff (key : string) (w w' : World) (e : Error) :
  getImageUrl env key w = (Throw e, w') <->
  w' = w
  /\ exists entry,
       cache w !! key = Some entry
       /\ ToBoolean (Some entry) = true
       /\ ToNumber (get_property entry "timestamp") = Throw e.
Proof.
  rewrite getImageUrl_spec, <- cache_hit_throws.
  destruct (cache_hit w key) as [[]|e0] eqn:Hhit.
  - split; [intros [=]|intros [_ [=]]].
  - rewrite getImageUrl_settle_value. split; [intros [=]|intros [_ [=]]].
  - split.
    + by intros [= -> ->].
    + by intros [-> [= ->]].
Qed.

(** X2. After a call that had a URL signed, a further call for the same key
    is answered from the cache, with the same URL and without any effect,
    as long as less than an hour has passed on the clock since the signing
    settled; from one hour on, the call has the key signed again. Nothing
    else matters about the later state than its clock and its entry for the
    key. *)
Theorem getImageUrl_again (key u : string) (w w2 : World) :
  cache_hit w key = Normal false ->
  outcome (getSignedUrl env (signing_request env key)) = Normal u ->
  let w1 := (getImageUrl env key w).2 in
  cache w2 !! key = cache w1 !! key ->
  (clock w2 - clock w1 < IMAGE_URL_EXPIRATION ->
   getImageUrl env key w2 = (Normal (Some (JStr u)), w2))
  /\ (IMAGE_URL_EXPIRATION <= clock w2 - clock w1 ->
      exists w3,
        getImageUrl env key w2 = (Normal (Some (JStr u)), w3)
        /\ requests w3 = requests w2 ++ [signing_request env key]).
Proof.
  intros Hmiss Hu w1 Hsame.
  destruct (getImageUrl_signed key u w Hmiss Hu) as (w' & Hrun & Hclock & Hcache & _).
  subst w1. rewrite Hrun in *. simpl in *.
  rewrite Hcache, lookup_insert_eq in Hsame.
  pose proof (cache_hit_entry w2 key _ (clock w') Hsame eq_refl) as Hhit.
  split; intros Hage.
  - rewrite getImageUrl_spec, Hhit.
    assert ((clock w2 - clock w' <? IMAGE_URL_EXPIRATION) = true) as -> by lia.
    unfold cached_url. by rewrite Hsame.
  - assert ((clock w2 - clock w' <? IMAGE_URL_EXPIRATION) = false) as Hfalse by lia.
    rewrite Hfalse in Hhit.
    destruct (getImageUrl_signed key u w2 Hhit Hu) as (w3 & Hrun3 & _ & _ & Hreq & _).
    by exists w3.
Qed.

(** X3. An entry without a usable [timestamp] counts as expired, whatever
    the clock says: when the conversion of the entry's [timestamp] gives
    [NaN] (the property is missing, the entry is no object, the value is an
    object or a text that is no number), the call sends a signing request
    and, when that succeeds, returns the new URL and puts in the place of
    the old entry the object of the properties [url], the new URL, and
    [timestamp], the clock at that time. *)
Theorem getImageUrl_unusable_timestamp (key : string) (w : World) (entry : jsval) :
  cache w !! key = Some entry ->
  ToNumber (get_property entry "timestamp") = Normal NaN ->
  exists v w',
    getImageUrl env key w = (Normal v, w')
    /\ requests w' = requests w ++ [signing_request env key]
    /\ forall u,
         outcome (getSignedUrl env (signing_request env key)) = Normal u ->
         v = Some (JStr u)
         /\ cache w' !! key
            = Some (JObj (<["url" := JStr u]>
                            (<["timestamp" := JNum (clock w')]> ∅))).
Proof.
  intros Hentry Hnan.
  assert (cache_hit w key = Normal false) as Hmiss
    by (apply cache_hit_unusable; by rewrite Hentry).
  destruct (outcome (getSignedUrl env (signing_request env key))) as [u|e] eqn:Ho.
  - destruct (getImageUrl_signed key u w Hmiss Ho)
      as (w' & Hrun & _ & Hcache & Hreq & _).
    exists (Some (JStr u)), w'. split_and!; [done..|].
    intros u' [= <-]. split; [done|]. by rewrite Hcache, lookup_insert_eq.
  - rewrite getImageUrl_spec, Hmiss, (getImageUrl_settle_rejected env key e _ Ho).
    do 2 eexists. split_and!; [reflexivity|reflexivity|]. by intros u' [=].
Qed.

(** X4. Whatever a call of [getImageUrl] does, it keeps what it is not
    about: the entries of the other keys, the images on the page and the
    loading flag, and every record of the storage but the cache's own (the
    favorites among them); the entry of [key] is still there if it was, and
    a cache of [{url, timestamp}] entries stays one. *)
Theorem getImageUrl_keeps (key : string) (w : World) :
  let w' := (getImageUrl env key w).2 in
  (forall k, k <> key -> cache w' !! k = cache w !! k)
  /\ (is_Some (cache w !! key) -> is_Some (cache w' !! key))
  /\ (well_shaped (cache w) -> well_shaped (cache w'))
  /\ images w' = images w
  /\ loading w' = loading w
  /\ forall k, k <> CACHE_KEY ->
               items (localStorage w') !! k = items (localStorage w) !! k.
Proof.
  rewrite getImageUrl_spec.
  destruct (cache_hit w key) as [[]|e] eqn:Hhit; simpl; [done| |done].
  set (w0 := with_requests _ w).
  pose proof (getImageUrl_settle_only_caches env key w0)
    as (_ & Hi & Hl & _ & _ & Hs & Hc & Hw).
  split_and!; [|exact (Hc key)|exact Hw|exact Hi|exact Hl|exact Hs].
  destruct (outcome (getSignedUrl env (signing_request env key))) as [u|e] eqn:Ho.
  - rewrite (getImageUrl_settle_resolved env key u _ Ho), saveCache_spec.
    intros k Hk. destruct (setItem _ _ _); simpl; by rewrite lookup_insert_ne.
  - by rewrite (getImageUrl_settle_rejected env key e _ Ho).
Qed.

End Resolving.

(** ** A signed URL and the next visit *)

Section Reloading.
Context {P : Platform}.
Variable env : Env.

(** X5. The purpose of the persisted record. On an engine whose JSON codec
    reads back what it prints, with a cache of [{url, timestamp}] entries:
    when a call has a URL signed and the storage takes the write, every
    page that starts later on that storage builds the same cache, logging
    nothing, and its [getImageUrl] answers the key with the same URL and
    without a signing request while less than an hour has passed since the
    signing settled. *)
Theorem getImageUrl_survives_reload (key u : string) (w : World) (st : Storage) :
  codec_reads_back P ->
  well_shaped (cache w) ->
  cache_hit w key = Normal false ->
  outcome (getSignedUrl env (signing_request env key)) = Normal u ->
  setItem CACHE_KEY
    (JSON_stringify
       (Object_fromEntries
          (<[key := cache_entry u
                      (clock w + elapsed (getSignedUrl env (signing_request env key)))]>
             (cache w))))
    (localStorage w) = Normal st ->
  exists w1,
    getImageUrl env key w = (Normal (Some (JStr u)), w1)
    /\ forall w0,
         localStorage w0 = localStorage w1 ->
         module_init w0 = (Normal tt, with_cache (cache w1) w0)
         /\ (clock w0 - clock w1 < IMAGE_URL_EXPIRATION ->
             getImageUrl env key (with_cache (cache w1) w0)
             = (Normal (Some (JStr u)), with_cache (cache w1) w0)).
Proof.
  intros Hcodec Hshape Hmiss Hu Hset.
  destruct (getImageUrl_signed env key u w Hmiss Hu)
    as (w1 & Hrun & Hclock & Hcache & _ & Hstore).
  destruct (Hstore st Hset) as [Hst _].
  exists w1. split; [exact Hrun|]. intros w0 Hw0.
  assert (well_shaped (cache w1)) as Hshape1
    by (rewrite Hcache; by apply well_shaped_insert).
  destruct (Hcodec (cache w1) Hshape1) as [Hreads Hnonempty].
  assert (getItem CACHE_KEY (localStorage w0)
          = Normal (Some (JSON_stringify (Object_fromEntries (cache w1))))) as Hget.
  { rewrite Hw0, Hst. apply setItem_stores in Hset as [Hget _].
    rewrite Hget, Hcache, Hclock. reflexivity. }
  split.
  - unfold module_init, bind.
    by rewrite (createPersistentImageCache_reads w0 _ (cache w1) Hget Hnonempty Hreads).
  - intros Hage. rewrite getImageUrl_spec.
    assert (cache (with_cache (cache w1) w0) !! key
            = Some (cache_entry u (clock w1))) as Hentry
      by (simpl; by rewrite Hcache, lookup_insert_eq).
    rewrite (cache_hit_entry _ key _ (clock w1) Hentry eq_refl). simpl.
    assert ((clock w0 - clock w1 <? IMAGE_URL_EXPIRATION) = true) as -> by lia.
    unfold cached_url. by rewrite Hentry.
Qed.

End Reloading.

(** ** More on one load *)

Section Loading.
Context {P : Platform}.
Variable env : Env.

(** The whole of a load, as a function of the state the listing arrives
    in. *)
Lemma loadImagesFromS3_spec (order : list nat) (w : World) :
  let listing := send_ListObjectsV2 env (BUCKET_NAME env) in
  let arrival := with_clock (clock w + elapsed listing) (with_loading true w) in
  loadImagesFromS3 env order w =
  (Normal tt,
   match outcome listing with
   | Throw e =>
       with_loading false
         (with_console (console w ++ [("Error loading images from S3:", e)]) arrival)
   | Normal response =>
       match Contents response with
       | None => with_loading false (with_images [] arrival)
       | Some contents =>
           let started :=
             with_requests
               (requests w ++ concat (issued_at env arrival <$> contents)) arrival in
           match first_rejection (promise_at arrival <$> contents) with
           | Some e =>
               with_loading false
                 (with_console
                    (console w ++ [("Error loading images from S3:", e)]) started)
           | None =>
               with_loading false
                 (with_images
                    (Array_sort by_lastModified
                       (omap (fun object =>
                                image_record object
                                  (promise_value
                                     (fulfil env (promise_at arrival object))))
                             contents))
                    (Promise_all env order (promise_at arrival <$> contents)
                       started).2)
           end
       end
   end).
Proof.
  intros listing arrival.
  unfold loadImagesFromS3, try_catch, bind, setLoading, await, console_error,
    setImages.
  fold listing. destruct (outcome listing) as [response|e]; [|reflexivity].
  destruct (Contents response) as [contents|]; [|reflexivity].
  rewrite Array_map_start_promise. simpl. fold arrival.
  destruct (first_rejection (promise_at arrival <$> contents)) as [e|] eqn:Hrej.
  - unfold Promise_all. rewrite Hrej. reflexivity.
  - rewrite (Promise_all_spec env order _ _ Hrej).
    rewrite <- !list_fmap_compose, zip_with_fmap_r, omap_fmap_id. reflexivity.
Qed.

Lemma omap_ext_in {A B} (f g : A -> option B) (l : list A) :
  (forall x, x ∈ l -> f x = g x) -> omap f l = omap g l.
Proof.
  induction l as [|x l IH]; intros Hext; csimpl; [done|].
  rewrite (Hext x) by (apply elem_of_cons; by left).
  rewrite IH; [done|]. intros y Hy. apply Hext, elem_of_cons. by right.
Qed.

Lemma filter_none {A} (Q : A -> Prop) `{!forall x, Decision (Q x)} (l : list A) :
  (forall x, x ∈ l -> ~ Q x) -> filter Q l = [].
Proof.
  induction l as [|x l IH]; intros Hnone; [done|].
  rewrite filter_cons_False by (apply Hnone, elem_of_cons; by left).
  apply IH. intros y Hy. apply Hnone, elem_of_cons. by right.
Qed.

Lemma first_rejection_None (w : World) (contents : list S3Object) :
  first_rejection (promise_at w <$> contents) = None <->
  Forall (fun object => exists b, cache_hit w (Key object) = Normal b) contents.
Proof.
  induction contents as [|object contents IH]; simpl.
  - split; [constructor|done].
  - rewrite Forall_cons. unfold promise_at at 1.
    destruct (cache_hit w (Key object)) as [[]|e].
    + rewrite IH. split; [by split; [eexists|]|by intros [_ ?]].
    + rewrite IH. split; [by split; [eexists|]|by intros [_ ?]].
    + split; [done|]. by intros [[b [=]] _].
Qed.

Lemma issued_at_misses (w : World) (contents : list S3Object) :
  concat (issued_at env w <$> contents)
  = (fun object => signing_request env (Key object))
      <$> filter (fun object => cache_miss w (Key object) = true) contents.
Proof.
  induction contents as [|object contents IH]; [done|].
  csimpl. rewrite IH, filter_cons.
  destruct (decide (cache_miss w (Key object) = true)) as [Hmiss|Hmiss];
    unfold cache_miss in Hmiss; unfold issued_at;
    destruct (cache_hit w (Key object)) as [[]|e]; done.
Qed.

(** X6. A load whose calls settle never lets an exception out and never
    leaves the page loading: whether the listing is fulfilled or rejected,
    whether each signing is fulfilled or rejected, whatever the cache
    holds and in whatever order the signings settle, [loadImagesFromS3]
    ends normally with the loading flag off. (An awaited call is one that
    settles, see [Settled]; the code sets no time limit, so a call that
    stays pending leaves the load suspended at its [await], the flag on:
    that case is not one of this theorem.) *)
Theorem loadImagesFromS3_settles (order : list nat) (w : World) :
  exists w', loadImagesFromS3 env order w = (Normal tt, w') /\ loading w' = false.
Proof.
  rewrite loadImagesFromS3_spec. eexists. split; [reflexivity|].
  destruct (outcome _) as [response|e]; [|reflexivity].
  destruct (Contents response) as [contents|]; [|reflexivity].
  simpl. by destruct (first_rejection _).
Qed.

(** X7. What a load asks of the signing service. When the listing
    succeeds, the load sends one signing request for each listed object
    whose cache test fails when the listing arrives, in the order of the
    listing, and no other; this holds also when the load then ends in its
    [catch]. *)
Theorem loadImagesFromS3_requests (order : list nat) (w : World)
    (response : ListObjectsV2Output) :
  outcome (send_ListObjectsV2 env (BUCKET_NAME env)) = Normal response ->
  let arrival :=
    with_clock (clock w + elapsed (send_ListObjectsV2 env (BUCKET_NAME env))) w in
  requests (loadImagesFromS3 env order w).2
  = requests w
    ++ ((fun object => signing_request env (Key object))
          <$> filter (fun object => cache_miss arrival (Key object) = true)
                     (default [] (Contents response))).
Proof.
  intros Hlist arrival.
  rewrite loadImagesFromS3_spec, Hlist. simpl.
  destruct (Contents response) as [contents|]; simpl.
  - rewrite <- (issued_at_misses arrival contents).
    destruct (first_rejection _); simpl; [reflexivity|].
    match goal with
    | |- requests (Promise_all env order ?ps ?w0).2 = _ =>
        pose proof (Promise_all_only_caches env order ps w0) as [Hreq _]
    end.
    rewrite Hreq. reflexivity.
  - by rewrite app_nil_r.
Qed.

(** X8. A load for which the cache answers every listed object sends no
    signing request and writes nothing: cache, storage and console are as
    before, and the images set are the cached URLs with the objects' keys
    and dates: an image is set exactly when it is the record of a listed
    object whose cached [url] is truthy, and no image is older than the
    one after it. *)
Theorem loadImagesFromS3_all_cached (order : list nat) (w : World)
    (response : ListObjectsV2Output) (contents : list S3Object) :
  outcome (send_ListObjectsV2 env (BUCKET_NAME env)) = Normal response ->
  Contents response = Some contents ->
  let arrival :=
    with_clock (clock w + elapsed (send_ListObjectsV2 env (BUCKET_NAME env))) w in
  (forall object, object ∈ contents -> cache_hit arrival (Key object) = Normal true) ->
  exists w',
    loadImagesFromS3 env order w = (Normal tt, w')
    /\ requests w' = requests w
    /\ cache w' = cache w
    /\ localStorage w' = localStorage w
    /\ console w' = console w
    /\ images w'
       = Array_sort by_lastModified
           (omap (fun object => image_record object (cached_url w (Key object)))
                 contents)
    /\ (forall r,
          r ∈ images w' <->
          exists object v,
            object ∈ contents
            /\ cached_url w (Key object) = Some v
            /\ ToBoolean (Some v) = true
            /\ r = {| id := Key object; url := v;
                      lastModified := LastModified object |})
    /\ Sorted newer_first (images w').
Proof.
  intros Hlist Hcontents arrival Hhits.
  rewrite loadImagesFromS3_spec, Hlist, Hcontents.
  set (arrived := with_clock _ (with_loading true w)).
  assert (forall object, object ∈ contents ->
                         promise_at arrived object
                         = Fulfilled (cached_url w (Key object))) as Hpromise.
  { intros object Hin. unfold promise_at.
    change (cache_hit arrived (Key object)) with (cache_hit arrival (Key object)).
    by rewrite (Hhits object Hin). }
  assert (promise_at arrived <$> contents
          = (fun object => Fulfilled (cached_url w (Key object))) <$> contents)
    as Hpromises.
  { apply list_fmap_ext. intros i object Hi. apply Hpromise.
    by eapply list_elem_of_lookup_2. }
  assert (concat (issued_at env arrived <$> contents) = []) as Hnone.
  { rewrite issued_at_misses, filter_none; [done|].
    intros object Hin. unfold cache_miss.
    change (cache_hit arrived (Key object)) with (cache_hit arrival (Key object)).
    by rewrite (Hhits object Hin). }
  assert (first_rejection (promise_at arrived <$> contents) = None) as Hrej.
  { apply first_rejection_None, Forall_forall. intros object Hin. exists true.
    exact (Hhits object Hin). }
  cbv zeta. rewrite Hrej, Hnone, app_nil_r.
  unfold Promise_all. rewrite Hrej. unfold bind.
  rewrite settle_promises_fulfilled.
  2:{ rewrite Hpromises. apply Forall_fmap, Forall_true. intros object. by eexists. }
  eexists. split; [reflexivity|]. simpl.
  rewrite (omap_ext_in _ (fun object =>
             image_record object (cached_url w (Key object))))
    by (intros object Hin; by rewrite (Hpromise object Hin)).
  split_and!; try done.
  - intros r. rewrite Array_sort_Permutation, list_elem_of_omap. split.
    + intros (object & Hin & Hrecord).
      apply image_record_Some in Hrecord as (v & Hv & Htruthy & ->).
      by exists object, v.
    + intros (object & v & Hin & Hv & Htruthy & ->).
      exists object. split; [done|]. apply image_record_Some. by exists v.
  - apply Array_sort_Sorted.
Qed.

Lemma loadImagesFromS3_only_caches (order : list nat) (w : World) :
  let w' := (loadImagesFromS3 env order w).2 in
  denied (localStorage w') = denied (localStorage w)
  /\ (forall k, k <> CACHE_KEY ->
                items (localStorage w') !! k = items (localStorage w) !! k)
  /\ (forall key, is_Some (cache w !! key) -> is_Some (cache w' !! key))
  /\ (well_shaped (cache w) -> well_shaped (cache w')).
Proof.
  rewrite loadImagesFromS3_spec. simpl.
  destruct (outcome _) as [response|e]; [|done].
  destruct (Contents response) as [contents|]; [|done].
  simpl. destruct (first_rejection _); [done|]. simpl.
  match goal with
  | |- context [Promise_all env order ?ps ?w0] =>
      pose proof (Promise_all_only_caches env order ps w0)
        as (_ & _ & _ & Hd & _ & Hs & Hc & Hw)
  end.
  done.
Qed.

(** X9. A load never takes an entry out of the cache, be it as old as it
    may: every key the cache knew before the load it knows after it, in
    every outcome of the load; and a cache of [{url, timestamp}] entries is
    one after the load. *)
Theorem loadImagesFromS3_keeps_entries (order : list nat) (w : World) :
  let w' := (loadImagesFromS3 env order w).2 in
  (forall key, is_Some (cache w !! key) -> is_Some (cache w' !! key))
  /\ (well_shaped (cache w) -> well_shaped (cache w')).
Proof.
  pose proof (loadImagesFromS3_only_caches order w) as (_ & _ & Hc & Hw).
  by split.
Qed.

(** X10. The order in which the signings settle does not show: two runs of
    a load from the same state that differ in that order only set the same
    list of images, in the same order, and have sent the same requests. *)
Theorem loadImagesFromS3_order_irrelevant (order1 order2 : list nat) (w : World) :
  images (loadImagesFromS3 env order1 w).2 = images (loadImagesFromS3 env order2 w).2
  /\ requests (loadImagesFromS3 env order1 w).2
     = requests (loadImagesFromS3 env order2 w).2.
Proof.
  rewrite !loadImagesFromS3_spec. simpl.
  destruct (outcome _) as [response|e]; [|done].
  destruct (Contents response) as [contents|]; [|done].
  simpl. destruct (first_rejection _); [done|]. simpl. split; [done|].
  match goal with
  | |- requests (Promise_all env order1 ?ps ?w0).2 = _ =>
      pose proof (Promise_all_only_caches env order1 ps w0) as [Hreq1 _];
      pose proof (Promise_all_only_caches env order2 ps w0) as [Hreq2 _]
  end.
  congruence.
Qed.

(** X11. One entry can stop the gallery. When the listing names an object
    whose cached entry is truthy and has a [timestamp] that cannot be
    converted to a number, the load ends in its [catch]: a conversion error
    is logged as an error of the load, the loading flag is off, and the
    images on the page stay what they were (none on a first load) although
    other objects were resolved or could have been. (The signings already
    sent for other objects settle after the load has ended and can still
    write the cache and its record; the theorem is about the page, and
    says nothing of them.) *)
Theorem loadImagesFromS3_unconvertible_timestamp (order : list nat) (w : World)
    (response : ListObjectsV2Output) (contents : list S3Object)
    (object : S3Object) (entry : jsval) (e0 : Error) :
  outcome (send_ListObjectsV2 env (BUCKET_NAME env)) = Normal response ->
  Contents response = Some contents ->
  object ∈ contents ->
  cache w !! Key object = Some entry ->
  ToBoolean (Some entry) = true ->
  ToNumber (get_property entry "timestamp") = Throw e0 ->
  exists e w',
    loadImagesFromS3 env order w = (Normal tt, w')
    /\ console w' = console w ++ [("Error loading images from S3:", e)]
    /\ images w' = images w
    /\ loading w' = false.
Proof.
  intros Hlist Hcontents Hin Hentry Htruthy Hthrow.
  rewrite loadImagesFromS3_spec, Hlist, Hcontents. cbv zeta.
  set (arrival := with_clock _ (with_loading true w)).
  assert (cache_hit arrival (Key object) = Throw e0) as Hhit.
  { apply cache_hit_throws. by exists entry. }
  destruct (first_rejection (promise_at arrival <$> contents)) as [e|] eqn:Hrej.
  - exists e. eexists. split; [reflexivity|]. done.
  - apply first_rejection_None in Hrej.
    apply (proj1 (Forall_forall _ _) Hrej) in Hin as [b Hb]. congruence.
Qed.

Lemma sort_insert_head (x : ImageRecord) (l : list ImageRecord) :
  HdRel newer_first x l -> sort_insert by_lastModified x l = x :: l.
Proof.
  intros [|y l' Hxy]; [done|]. simpl.
  unfold newer_first in Hxy. unfold by_lastModified.
  by assert ((0 <? lastModified y - lastModified x) = false) as -> by lia.
Qed.

Lemma Array_sort_sorted (l : list ImageRecord) :
  Sorted newer_first l -> Array_sort by_lastModified l = l.
Proof.
  induction 1 as [|x l Hsorted IH Hhd]; [done|].
  unfold Array_sort in *. simpl. rewrite IH. by apply sort_insert_head.
Qed.

Lemma image_records_sorted (contents : list S3Object)
    (resolve : S3Object -> option jsval) :
  Sorted listed_newer_first contents ->
  Sorted newer_first
    (omap (fun object => image_record object (resolve object)) contents).
Proof.
  intros Hsorted. apply StronglySorted_Sorted.
  assert (StronglySorted listed_newer_first contents) as Hstrong.
  { apply Sorted_StronglySorted; [|done].
    intros a b c. unfold listed_newer_first. lia. }
  clear Hsorted. induction Hstrong as [|object contents Hstrong IH Hall];
    [constructor|].
  csimpl. destruct (image_record object (resolve object)) as [r|] eqn:Hr; [|done].
  constructor; [done|].
  apply Forall_forall. intros r' (object' & Hin & Hr')%list_elem_of_omap.
  apply image_record_Some in Hr as (v & _ & _ & ->).
  apply image_record_Some in Hr' as (v' & _ & _ & ->).
  unfold newer_first. simpl.
  by apply (proj1 (Forall_forall _ _) Hall).
Qed.

(** X12. The order of the gallery is fixed by the listing. When the listing
    names its objects newest first already (and no cached timestamp is
    beyond conversion), the images set are the records of the objects that
    came to a usable URL in the very order of the listing: the sort moves
    nothing, and images of the same date keep the order the listing gave
    them, in whatever order the signings settle. *)
Theorem loadImagesFromS3_listing_order (order : list nat) (w : World)
    (response : ListObjectsV2Output) (contents : list S3Object) :
  outcome (send_ListObjectsV2 env (BUCKET_NAME env)) = Normal response ->
  Contents response = Some contents ->
  timestamps_convert (cache w) ->
  Sorted listed_newer_first contents ->
  let arrival :=
    with_clock (clock w + elapsed (send_ListObjectsV2 env (BUCKET_NAME env))) w in
  images (loadImagesFromS3 env order w).2
  = omap (fun object => image_record object (resolved_url env arrival (Key object)))
         contents.
Proof.
  intros Hlist Hcontents Hconv Hsorted arrival.
  rewrite loadImagesFromS3_spec, Hlist, Hcontents. cbv zeta.
  set (arrived := with_clock _ (with_loading true w)).
  destruct (promises_resolve env contents arrived Hconv) as [Hnone Hvalues].
  rewrite Hnone. simpl.
  assert (forall object,
            promise_value (fulfil env (promise_at arrived object))
            = resolved_url env arrival (Key object)) as Hvalue.
  { intros object. unfold promise_at, resolved_url.
    change (cache_hit arrival (Key object)) with (cache_hit arrived (Key object)).
    destruct (timestamps_convert_cache_hit arrived (Key object) Hconv) as [b ->].
    by destruct b. }
  rewrite (omap_ext_in _ (fun object =>
             image_record object (resolved_url env arrival (Key object))))
    by (intros object _; by rewrite Hvalue).
  apply Array_sort_sorted, image_records_sorted, Hsorted.
Qed.

(** X13. A shared link after a load. When the listing succeeds (and no
    cached timestamp is beyond conversion), the link opens an image exactly
    when its id is not empty and the listing names an object of that key
    whose [getImageUrl] came to a usable URL; the image opened carries
    that id and is one of the images on the page. *)
Theorem shared_image_after_load (order : list nat) (w : World)
    (response : ListObjectsV2Output) (shared : string) :
  outcome (send_ListObjectsV2 env (BUCKET_NAME env)) = Normal response ->
  timestamps_convert (cache w) ->
  let contents := default [] (Contents response) in
  let arrival :=
    with_clock (clock w + elapsed (send_ListObjectsV2 env (BUCKET_NAME env))) w in
  let shown := images (loadImagesFromS3 env order w).2 in
  ((exists image, shared_image (Some shared) shown = Some image) <->
   shared <> ""
   /\ exists object v,
        object ∈ contents
        /\ Key object = shared
        /\ resolved_url env arrival (Key object) = Some v
        /\ ToBoolean (Some v) = true)
  /\ forall image,
       shared_image (Some shared) shown = Some image ->
       id image = shared /\ image ∈ shown.
Proof.
  intros Hlist Hconv contents arrival shown.
  assert (forall r,
            r ∈ shown <->
            exists object v,
              object ∈ contents
              /\ resolved_url env arrival (Key object) = Some v
              /\ ToBoolean (Some v) = true
              /\ r = {| id := Key object; url := v;
                        lastModified := LastModified object |}) as Hshown.
  { subst shown contents. rewrite loadImagesFromS3_spec, Hlist. cbv zeta.
    destruct (Contents response) as [listed|]; simpl.
    - set (arrived := with_clock _ (with_loading true w)).
      destruct (promises_resolve env listed arrived Hconv) as [Hnone _].
      rewrite Hnone. simpl. intros r.
      rewrite Array_sort_Permutation, list_elem_of_omap. split.
      + intros (object & Hin & Hrecord).
        apply image_record_Some in Hrecord as (v & Hv & Htruthy & ->).
        exists object, v. split_and!; try done.
        rewrite <- Hv. unfold promise_at, resolved_url.
        change (cache_hit arrival (Key object)) with (cache_hit arrived (Key object)).
        destruct (timestamps_convert_cache_hit arrived (Key object) Hconv) as [b ->].
        by destruct b.
      + intros (object & v & Hin & Hv & Htruthy & ->).
        exists object. split; [done|]. apply image_record_Some. exists v.
        split_and!; try done.
        rewrite <- Hv. unfold promise_at, resolved_url.
        change (cache_hit arrival (Key object)) with (cache_hit arrived (Key object)).
        destruct (timestamps_convert_cache_hit arrived (Key object) Hconv) as [b ->].
        by destruct b.
    - intros r. split.
      + by intros Hin%elem_of_nil.
      + by intros (object & v & Hin%elem_of_nil & _). }
  assert (forall image,
            shared_image (Some shared) shown = Some image ->
            shared <> "" /\ id image = shared /\ image ∈ shown) as Hopened.
  { intros image. unfold shared_image. simpl.
    destruct (String.eqb_spec shared "") as [->|Hne]; simpl; [done|].
    destruct shown as [|first rest] eqn:Hlisted; [done|].
    intros [Hin Hid]%find_some.
    apply list_elem_of_In in Hin. apply String.eqb_eq in Hid. done. }
  split.
  - split.
    + intros [image Himage].
      destruct (Hopened image Himage) as (Hne & Hid & Hin).
      split; [exact Hne|].
      apply Hshown in Hin as (object & v & Hin & Hv & Htruthy & ->).
      by exists object, v.
    + intros (Hne & object & v & Hin & Hkey & Hv & Htruthy).
      assert ({| id := Key object; url := v; lastModified := LastModified object |}
              ∈ shown) as Hrecord
        by (apply Hshown; by exists object, v).
      unfold shared_image. simpl.
      apply String.eqb_neq in Hne. rewrite Hne. simpl.
      destruct shown as [|first rest] eqn:Hlisted; [by apply elem_of_nil in Hrecord|].
      destruct (find (fun img => String.eqb (id img) shared) (first :: rest))
        as [image|] eqn:Hfind; [by exists image|].
      apply list_elem_of_In in Hrecord.
      pose proof (find_none _ _ Hfind _ Hrecord) as Hno. simpl in Hno.
      apply String.eqb_neq in Hno. done.
  - intros image Himage. by destruct (Hopened image Himage) as (_ & ? & ?).
Qed.

End Loading.

(** ** The favorites *)

Lemma is_id_true (imageId : string) (x : jsval) :
  is_id imageId x = true <-> x = JStr imageId.
Proof.
  destruct x; simpl; try (split; [done|intros [=]]).
  rewrite String.eqb_eq. split; [by intros ->|by intros [= ->]].
Qed.

Lemma is_id_other (imageId other : string) :
  other <> imageId -> is_id other (JStr imageId) = false.
Proof. intros Hne. simpl. apply String.eqb_neq. congruence. Qed.

Lemma existsb_is_id (imageId : string) (l : list jsval) :
  existsb (is_id imageId) l = true <-> JStr imageId ∈ l.
Proof.
  rewrite existsb_exists. split.
  - intros (x & Hin & Hx). apply is_id_true in Hx as ->. by apply list_elem_of_In.
  - intros Hin. exists (JStr imageId). split; [by apply list_elem_of_In|].
    by apply is_id_true.
Qed.

Lemma existsb_is_id_false (imageId : string) (l : list jsval) :
  existsb (is_id imageId) l = false <-> JStr imageId ∉ l.
Proof.
  rewrite <- existsb_is_id. by destruct (existsb (is_id imageId) l).
Qed.

Lemma elem_of_without (imageId : string) (l : list jsval) (x : jsval) :
  x ∈ filter (fun y => is_id imageId y = false) l <-> x ∈ l /\ x <> JStr imageId.
Proof.
  rewrite list_elem_of_filter, <- is_id_true.
  destruct (is_id imageId x); intuition congruence.
Qed.

Lemma without_absent (imageId : string) (l : list jsval) :
  JStr imageId ∉ l -> filter (fun y => is_id imageId y = false) l = l.
Proof.
  induction l as [|x l IH]; intros Hnotin; [done|].
  apply not_elem_of_cons in Hnotin as [Hne Hnotin].
  rewrite filter_cons_True, IH; [done..|].
  destruct (is_id imageId x) eqn:Hx; [|done].
  apply is_id_true in Hx. congruence.
Qed.

Lemma without_idemp (imageId : string) (l : list jsval) :
  filter (fun y => is_id imageId y = false)
         (filter (fun y => is_id imageId y = false) l)
  = filter (fun y => is_id imageId y = false) l.
Proof.
  apply without_absent. rewrite elem_of_without. by intros [_ ?].
Qed.

Lemma without_appended (imageId : string) (l : list jsval) :
  filter (fun y => is_id imageId y = false) (l ++ [JStr imageId])
  = filter (fun y => is_id imageId y = false) l.
Proof.
  rewrite filter_app, filter_cons_False, filter_nil, app_nil_r; [done|].
  simpl. by rewrite String.eqb_refl.
Qed.

Lemma without_fmap (imageId : string) (ids : list string) :
  filter (fun y => is_id imageId y = false) (JStr <$> ids)
  = JStr <$> filter (fun i => is_id imageId (JStr i) = false) ids.
Proof.
  induction ids as [|i ids IH]; [done|].
  csimpl. rewrite !filter_cons, IH. simpl.
  by destruct (decide ((i =? imageId)%string = false)).
Qed.

Lemma elem_of_toggled (imageId : string) (l : list jsval) (x : jsval) :
  x ∈ toggled imageId l <->
  (x ∈ l /\ x <> JStr imageId) \/ (x = JStr imageId /\ JStr imageId ∉ l).
Proof.
  unfold toggled. destruct (existsb (is_id imageId) l) eqn:Hmember.
  - apply existsb_is_id in Hmember. rewrite elem_of_without. intuition.
  - apply existsb_is_id_false in Hmember.
    rewrite elem_of_app, list_elem_of_singleton.
    pose proof (is_id_true imageId x) as Hx.
    destruct (is_id imageId x); intuition (subst; congruence).
Qed.

Section FavoritesProperties.
Context {P : Platform}.

Lemma toggleFavorite_spec (imageId : string) (l : list jsval) (w : World) :
  toggleFavorite imageId (JArr l) w =
  match setItem FAVORITES_KEY (JSON_stringify (JArr (toggled imageId l)))
                (localStorage w) with
  | Normal st => (Normal (JArr (toggled imageId l)), with_localStorage st w)
  | Throw e => (Throw e, w)
  end.
Proof.
  unfold toggleFavorite, toggled, bind, lift, ret, localStorage_setItem. simpl.
  destruct (existsb (is_id imageId) l); simpl; by destruct (setItem _ _ _).
Qed.

(** A toggle that returns has written what it returns. *)
Lemma toggleFavorite_stores (imageId : string) (prev new : jsval) (w w' : World) :
  toggleFavorite imageId prev w = (Normal new, w') ->
  getItem FAVORITES_KEY (localStorage w') = Normal (Some (JSON_stringify new))
  /\ cache w' = cache w.
Proof.
  unfold toggleFavorite, bind, lift, ret, localStorage_setItem.
  destruct (includes prev imageId) as [member|e]; [|intros [=]].
  destruct (if member then without prev imageId else with_appended prev imageId)
    as [newFavorites|e]; [|intros [=]].
  destruct (setItem _ _ _) as [st|e] eqn:Hset; [|intros [=]].
  intros [= <- <-]. simpl. split; [|done].
  by apply setItem_stores in Hset as [-> _].
Qed.

(** X14. One click on the heart, with an array of favorites. When the id
    is not in the array, the next value is the array with the id added
    once, at its end; when it is, the next value is the array without any
    occurrence of it, the other elements in the order they had. So the
    membership of [imageId] is the opposite of what it was and the
    membership of every other id is what it was. That array is handed to
    the storage first: when the storage takes it, it is the new state and
    the stored record is its serialization; when the storage throws, the
    exception leaves the function (there is no [catch]) and the storage is
    as before. *)
Theorem toggleFavorite_flips (imageId : string) (l : list jsval) (w : World) :
  exists new,
    toggleFavorite imageId (JArr l) w =
    match setItem FAVORITES_KEY (JSON_stringify (JArr new)) (localStorage w) with
    | Normal st => (Normal (JArr new), with_localStorage st w)
    | Throw e => (Throw e, w)
    end
    /\ (exists member,
          isFavorite (JArr l) imageId = Normal member
          /\ isFavorite (JArr new) imageId = Normal (negb member))
    /\ (forall other,
          other <> imageId ->
          isFavorite (JArr new) other = isFavorite (JArr l) other)
    /\ filter (fun x => is_id imageId x = false) new
       = filter (fun x => is_id imageId x = false) l
    /\ (JStr imageId ∉ l -> new = l ++ [JStr imageId])
    /\ (JStr imageId ∈ l ->
        (JStr imageId ∉ new)
        /\ new = filter (fun x => is_id imageId x = false) l
        /\ forall x, x ∈ new <-> x ∈ l /\ x <> JStr imageId).
Proof.
  exists (toggled imageId l). split; [apply toggleFavorite_spec|].
  split_and!.
  - exists (existsb (is_id imageId) l). split; [reflexivity|].
    unfold isFavorite, includes. f_equal.
    destruct (existsb (is_id imageId) l) eqn:Hmember; simpl.
    + apply existsb_is_id_false. rewrite elem_of_toggled.
      apply existsb_is_id in Hmember. intuition.
    + apply existsb_is_id. rewrite elem_of_toggled.
      apply existsb_is_id_false in Hmember. intuition.
  - intros other Hne. unfold isFavorite, includes. f_equal.
    apply Bool.eq_iff_eq_true. rewrite !existsb_is_id, elem_of_toggled.
    intuition congruence.
  - unfold toggled. destruct (existsb (is_id imageId) l).
    + apply without_idemp.
    + apply without_appended.
  - intros Habsent%existsb_is_id_false. unfold toggled. by rewrite Habsent.
  - intros Hpresent%existsb_is_id. unfold toggled. rewrite Hpresent.
    split_and!; [|done|].
    + rewrite elem_of_without. by intros [_ ?].
    + intros x. apply elem_of_without.
Qed.

(** X15. Two clicks on the same heart, with an array of favorites and a
    storage that takes both writes: when the id was no favorite, the
    favorites are back to the array they were; when it was one, every
    occurrence of it has been taken out and the id stands once, at the
    end. The stored record is the serialization of that array. *)
Theorem toggleFavorite_twice (imageId : string) (l : list jsval) (w : World)
    (st1 st2 : Storage) :
  let once := toggled imageId l in
  let twice :=
    if existsb (is_id imageId) l
    then filter (fun x => is_id imageId x = false) l ++ [JStr imageId]
    else l in
  setItem FAVORITES_KEY (JSON_stringify (JArr once)) (localStorage w) = Normal st1 ->
  setItem FAVORITES_KEY (JSON_stringify (JArr twice)) st1 = Normal st2 ->
  (let* favorites := toggleFavorite imageId (JArr l) in
   toggleFavorite imageId favorites) w
  = (Normal (JArr twice), with_localStorage st2 w)
  /\ getItem FAVORITES_KEY st2 = Normal (Some (JSON_stringify (JArr twice))).
Proof.
  intros once twice Hset1 Hset2.
  assert (toggled imageId once = twice) as Htwice.
  { subst once twice. unfold toggled at 2.
    destruct (existsb (is_id imageId) l) eqn:Hmember.
    - unfold toggled.
      assert (existsb (is_id imageId)
                (filter (fun x => is_id imageId x = false) l) = false) as ->; [|done].
      apply existsb_is_id_false. rewrite elem_of_without. by intros [_ ?].
    - unfold toggled.
      assert (existsb (is_id imageId) (l ++ [JStr imageId]) = true) as ->.
      { apply existsb_is_id, elem_of_app. right. by apply list_elem_of_singleton. }
      rewrite without_appended. apply without_absent.
      by apply existsb_is_id_false. }
  split.
  - unfold bind. rewrite toggleFavorite_spec. fold once. rewrite Hset1.
    rewrite toggleFavorite_spec, Htwice. simpl. rewrite Hset2.
    by destruct w.
  - by apply setItem_stores in Hset2 as [-> _].
Qed.

(** X16. What a click wrote is what the next visit starts with. When a
    toggle returns [new] (whatever the previous value was) and the engine's
    [JSON.parse] reads back the text that its [JSON.stringify] printed for
    [new], the initial value of the favorites of every page that starts on
    that storage is [new]. *)
Theorem toggleFavorite_then_reload (imageId : string) (prev new : jsval)
    (w w' w0 : World) :
  toggleFavorite imageId prev w = (Normal new, w') ->
  JSON_parse (JSON_stringify new) = Normal new ->
  JSON_stringify new <> "" ->
  localStorage w0 = localStorage w' ->
  initial_favorites w0 = (Normal new, w0).
Proof.
  intros Hrun Hreads Hnonempty Hw0.
  apply toggleFavorite_stores in Hrun as [Hget _].
  unfold initial_favorites, bind, localStorage_getItem, lift.
  rewrite Hw0, Hget. simpl.
  apply String.eqb_neq in Hnonempty. by rewrite Hnonempty, Hreads.
Qed.

(** X17. The favorites stay a list of ids without repetition: when they are
    one and a toggle returns, what it returns is one. (They are one on a
    storage without record, where they start as the empty array.) *)
Theorem toggleFavorite_keeps_ids (imageId : string) (prev new : jsval)
    (w w' : World) :
  favorite_ids prev ->
  toggleFavorite imageId prev w = (Normal new, w') ->
  favorite_ids new.
Proof.
  intros (ids & -> & Hnodup). rewrite toggleFavorite_spec.
  destruct (setItem _ _ _) as [st|e]; [|intros [=]]. intros [= <- _].
  unfold toggled. destruct (existsb _ _) eqn:Hmember.
  - exists (filter (fun i => is_id imageId (JStr i) = false) ids). split.
    + f_equal. apply without_fmap.
    + by apply NoDup_filter.
  - exists (ids ++ [imageId]). split.
    + by rewrite fmap_app.
    + apply NoDup_app. split_and!; [done| |apply NoDup_singleton].
      intros i Hi ->%list_elem_of_singleton.
      apply existsb_is_id_false in Hmember. apply Hmember.
      by apply list_elem_of_fmap_2.
Qed.

(** X18. The stored favorites are not checked. Whatever [JSON.parse] makes
    of the record is the initial value; when that is neither an array nor
    a text, the page cannot use it and cannot repair it: [isFavorite]
    throws for every id, the filter of the gallery throws as soon as there
    is an image to show, and every toggle throws before it writes, so that
    the record stays. *)
Theorem initial_favorites_unchecked (w : World) (s : string) (v : jsval) :
  getItem FAVORITES_KEY (localStorage w) = Normal (Some s) ->
  s <> "" ->
  JSON_parse s = Normal v ->
  (forall l, v <> JArr l) ->
  (forall t, v <> JStr t) ->
  initial_favorites w = (Normal v, w)
  /\ forall imageId,
       (exists e, isFavorite v imageId = Throw e)
       /\ (forall image imgs,
             exists e, visible_images true v (image :: imgs) = Throw e)
       /\ forall w1, exists e, toggleFavorite imageId v w1 = (Throw e, w1).
Proof.
  intros Hget Hnonempty Hparse Harray Htext. split.
  - unfold initial_favorites, bind, localStorage_getItem, lift.
    rewrite Hget. simpl. apply String.eqb_neq in Hnonempty.
    by rewrite Hnonempty, <- Hparse.
  - assert (forall imageId, exists e, includes v imageId = Throw e) as Hthrows.
    { intros imageId. destruct v; simpl; try (by eexists).
      - by destruct (Htext s0).
      - by destruct (Harray l). }
    intros imageId. split_and!.
    + apply Hthrows.
    + intros image imgs. destruct (Hthrows (id image)) as [e He].
      exists e. unfold visible_images. simpl. by rewrite He.
    + intros w1. destruct (Hthrows imageId) as [e He]. exists e.
      unfold toggleFavorite, bind, lift. by rewrite He.
Qed.

End FavoritesProperties.

(** ** The images on show *)

Lemma Array_filter_pure {A} (keep : A -> bool) (l : list A) :
  Array_filter (fun x => Normal (keep x)) l
  = Normal (filter (fun x => keep x = true) l).
Proof.
  induction l as [|x l IH]; [done|].
  simpl. rewrite IH, filter_cons. simpl.
  by destruct (keep x); destruct (decide _).
Qed.

Lemma visible_images_array (showFavorites : bool) (l : list jsval)
    (imgs : list ImageRecord) :
  visible_images showFavorites (JArr l) imgs
  = Normal (filter (fun image =>
                      negb showFavorites || existsb (is_id (id image)) l = true)
                   imgs).
Proof.
  unfold visible_images. rewrite <- Array_filter_pure.
  by destruct showFavorites.
Qed.

Lemma Sorted_newer_first_filter (Q : ImageRecord -> Prop)
    `{!forall x, Decision (Q x)} (l : list ImageRecord) :
  Sorted newer_first l -> Sorted newer_first (filter Q l).
Proof.
  intros Hsorted. apply StronglySorted_Sorted.
  assert (StronglySorted newer_first l) as Hstrong.
  { apply Sorted_StronglySorted; [|done].
    intros a b c. unfold newer_first. lia. }
  clear Hsorted. induction Hstrong as [|x l Hstrong IH Hall]; [constructor|].
  rewrite filter_cons. destruct (decide (Q x)); [|done].
  constructor; [done|].
  apply Forall_forall. intros y [_ Hy]%list_elem_of_filter.
  by apply (proj1 (Forall_forall _ _) Hall).
Qed.

(** X19. The gallery under the filter, with an array of favorites. The
    images on show are images of the list, each as often as there and in
    the order they have there, so that a list that is newest first is
    shown newest first; without the filter they are all of them, with it
    exactly those whose id is a favorite. *)
Theorem visible_images_shows (showFavorites : bool) (l : list jsval)
    (imgs : list ImageRecord) :
  exists shown,
    visible_images showFavorites (JArr l) imgs = Normal shown
    /\ shown `sublist_of` imgs
    /\ (forall image,
          image ∈ shown <->
          image ∈ imgs
          /\ (showFavorites = false \/ isFavorite (JArr l) (id image) = Normal true))
    /\ (showFavorites = false -> shown = imgs)
    /\ (Sorted newer_first imgs -> Sorted newer_first shown).
Proof.
  eexists. split; [apply visible_images_array|]. split_and!.
  - apply sublist_filter.
  - intros image. rewrite list_elem_of_filter. unfold isFavorite, includes.
    destruct showFavorites; simpl; [|intuition].
    split.
    + intros [-> Hin]. split; [done|]. by right.
    + intros [Hin [Hshow|[= ->]]]; [done|]. by split.
  - intros ->. simpl. induction imgs as [|image imgs IH]; [done|].
    rewrite filter_cons_True by done. by f_equal.
  - apply Sorted_newer_first_filter.
Qed.

Lemma render_cards_array (l : list jsval) (shown : list ImageRecord) :
  render_cards (JArr l) shown
  = Normal ((fun image => {| card_image := image;
                             card_favorite := existsb (is_id (id image)) l |})
              <$> shown).
Proof.
  induction shown as [|image shown IH]; [done|].
  simpl. by rewrite IH.
Qed.

Lemma grid_empty (l : list jsval) (shown : list ImageRecord) :
  completion_bind (render_cards (JArr l) shown) (fun cards => Normal (Grid cards))
  = Normal (Grid [])
  <-> shown = [].
Proof.
  rewrite render_cards_array. simpl. split.
  - intros [= Hnil]. by apply fmap_nil_inv in Hnil.
  - by intros ->.
Qed.

(** X20. An empty grid. With an array of favorites, the page shows a grid
    without any image, and none of its two messages, in one case only:
    the load is over, the filter is on, there are favorites and there are
    images, but no image is a favorite. *)
Theorem gallery_view_empty_grid (isLoading showFavorites : bool)
    (l : list jsval) (imgs : list ImageRecord) :
  gallery_view isLoading showFavorites (JArr l) imgs = Normal (Grid []) <->
  isLoading = false
  /\ showFavorites = true
  /\ l <> []
  /\ imgs <> []
  /\ forall image, image ∈ imgs -> isFavorite (JArr l) (id image) = Normal false.
Proof.
  unfold gallery_view. destruct isLoading; [split; [done|by intros [[=] _]]|].
  destruct imgs as [|image imgs].
  { split.
    - destruct showFavorites; simpl; [by destruct l|done].
    - by intros (_ & _ & _ & Himgs & _). }
  rewrite visible_images_array.
  set (shown := filter _ (image :: imgs)).
  assert (shown = [] <->
          showFavorites = true
          /\ forall r, r ∈ image :: imgs ->
                       isFavorite (JArr l) (id r) = Normal false) as Hshown.
  { subst shown. unfold isFavorite, includes. split.
    - intros Hnone. destruct showFavorites.
      + split; [done|]. intros r Hr. f_equal.
        destruct (existsb (is_id (id r)) l) eqn:Hmember; [|done].
        exfalso. by apply (filter_nil_not_elem_of _ _ r Hnone).
      + simpl in Hnone. by rewrite filter_cons_True in Hnone.
    - intros [-> Hall]. apply filter_none. intros r Hr. simpl.
      specialize (Hall r Hr). injection Hall as ->. done. }
  clearbody shown.
  destruct showFavorites; simpl.
  - destruct l as [|x l]; simpl.
    + split; [done|]. by intros (_ & _ & Hl & _).
    + rewrite grid_empty, Hshown. split.
      * intros [_ Hall]. done.
      * intros (_ & _ & _ & _ & Hall). done.
  - rewrite grid_empty, Hshown. split.
    + by intros [[=] _].
    + by intros (_ & [=] & _).
Qed.

(** ** The two records of the storage *)

Section Records.
Context {P : Platform}.
Variable env : Env.

(** X21. A load does not touch the favorites: the page that starts on the
    storage a load has left finds the same initial favorites, or fails to
    read them in the same way, as a page that starts on the storage from
    before the load. (Only the record of the cache is written.) *)
Theorem loadImagesFromS3_keeps_favorites (order : list nat) (w : World) :
  (initial_favorites (loadImagesFromS3 env order w).2).1 = (initial_favorites w).1.
Proof.
  pose proof (loadImagesFromS3_only_caches env order w) as (Hd & Hs & _).
  assert (FAVORITES_KEY <> CACHE_KEY) as Hne by done.
  unfold initial_favorites, bind, localStorage_getItem, getItem.
  rewrite Hd, (Hs _ Hne).
  destruct (denied (localStorage w)); [done|].
  destruct (items (localStorage w) !! FAVORITES_KEY) as [s|]; [|done].
  unfold lift, ret. by destruct (ToBoolean (Some (JStr s))).
Qed.

(** X22. [clear()] has no [catch]. It empties the cache in memory first;
    then, on a storage that may be used, it removes the record of the cache
    and no other, and a cache constructed afterwards is empty and logs
    nothing; on a storage that may not be used, the [SecurityError] leaves
    the call, with the cache in memory empty all the same. *)
Theorem imageUrlCache_clear_forgets (w : World) :
  exists w',
    cache w' = ∅
    /\ (forall key, imageUrlCache_has key w' = (Normal false, w'))
    /\ if denied (localStorage w)
       then imageUrlCache_clear w = (Throw SecurityError, w')
            /\ localStorage w' = localStorage w
       else imageUrlCache_clear w = (Normal tt, w')
            /\ items (localStorage w') = delete CACHE_KEY (items (localStorage w))
            /\ createPersistentImageCache w' = (Normal ∅, w').
Proof.
  unfold imageUrlCache_clear, bind, Map_clear, localStorage_removeItem, removeItem.
  simpl. destruct (denied (localStorage w)) eqn:Hdenied.
  - eexists. split_and!; [| |reflexivity|]; done.
  - eexists. split_and!; [| |reflexivity| |]; try done.
    rewrite createPersistentImageCache_spec, loadCache_spec.
    unfold getItem. simpl. rewrite lookup_delete_eq. reflexivity.
Qed.

End Records.

(** ** The further theorems on the reference engine *)

(** The tampered entry can come out of a stored record, and then stops
    both the resolution of its key and a load that lists it. *)
Example createPersistentImageCache_tampered_record :
  createPersistentImageCache (P := Reference.engine)
    (persisted (Reference.stringify (Object_fromEntries (cache tampered_world))))
  = (Normal (cache tampered_world),
     persisted (Reference.stringify (Object_fromEntries (cache tampered_world)))).
Proof. vm_compute. reflexivity. Qed.

Example getImageUrl_tampered_entry :
  getImageUrl (P := Reference.engine) (store three_photos []) "b" tampered_world
  = (Throw (TypeError "Cannot convert object to primitive value"), tampered_world).
Proof. vm_compute. reflexivity. Qed.

(** Favorites that are no array stop the grid also with the filter off:
    the heart of the first card cannot be drawn. *)
Example gallery_view_unusable_favorites :
  gallery_view false false (JObj ∅) [signed_image photo_a]
  = Throw (TypeError "favorites.includes is not a function").
Proof. reflexivity. Qed.

(** A storage that the record of the cache has filled refuses the
    favorites: the toggle throws. *)
Example toggleFavorite_quota_exceeded :
  let full :=
    with_localStorage {| items := ∅; denied := false; quota := 10 |} initial_world in
  toggleFavorite (P := Reference.engine) "a" (JArr []) full
  = (Throw QuotaExceededError, full).
Proof. vm_compute. reflexivity. Qed.

Lemma getImageUrl_again_witness :
  let env := store three_photos [] in
  let w1 := (getImageUrl (P := Reference.engine) env "a" initial_world).2 in
  let w2 := with_clock 1000000 w1 in
  cache_hit (P := Reference.engine) initial_world "a" = Normal false
  /\ outcome (getSignedUrl env (signing_request env "a")) = Normal "https://signed/a"
  /\ cache w2 !! "a" = cache w1 !! "a"
  /\ clock w2 - clock w1 < IMAGE_URL_EXPIRATION
  /\ getImageUrl (P := Reference.engine) env "a" w2
     = (Normal (Some (JStr "https://signed/a")), w2).
Proof.
  intros env w1 w2.
  split; [reflexivity|]. split; [reflexivity|]. split; [reflexivity|].
  assert (clock w2 - clock w1 < IMAGE_URL_EXPIRATION) as Hage by (vm_compute; reflexivity).
  split; [exact Hage|].
  exact (proj1 (getImageUrl_again (P := Reference.engine) env "a" "https://signed/a"
                  initial_world w2 eq_refl eq_refl eq_refl) Hage).
Defined.

Lemma getImageUrl_unusable_timestamp_witness :
  let env := store three_photos [] in
  let undated : jsval := JObj {[ "url" := JStr "https://old/a" ]} in
  let w := with_cache {[ "a" := undated ]} initial_world in
  cache w !! "a" = Some undated
  /\ ToNumber (P := Reference.engine) (get_property undated "timestamp") = Normal NaN
  /\ exists v w',
       getImageUrl (P := Reference.engine) env "a" w = (Normal v, w')
       /\ requests w' = requests w ++ [signing_request env "a"]
       /\ forall u,
            outcome (getSignedUrl env (signing_request env "a")) = Normal u ->
            v = Some (JStr u)
            /\ cache w' !! "a"
               = Some (JObj (<["url" := JStr u]>
                               (<["timestamp" := JNum (clock w')]> ∅))).
Proof.
  intros env undated w.
  split; [reflexivity|]. split; [reflexivity|].
  exact (getImageUrl_unusable_timestamp (P := Reference.engine) env "a" w undated
           eq_refl eq_refl).
Defined.

Lemma getImageUrl_survives_reload_witness :
  let env := store three_photos [] in
  codec_reads_back Reference.engine
  /\ well_shaped (cache initial_world)
  /\ cache_hit (P := Reference.engine) initial_world "a" = Normal false
  /\ outcome (getSignedUrl env (signing_request env "a")) = Normal "https://signed/a"
  /\ exists st,
       setItem CACHE_KEY
         (@JSON_stringify Reference.engine
            (Object_fromEntries
               (<["a" := cache_entry "https://signed/a"
                           (clock initial_world
                            + elapsed (getSignedUrl env (signing_request env "a")))]>
                  (cache initial_world))))
         (localStorage initial_world) = Normal st
       /\ exists w1,
            getImageUrl (P := Reference.engine) env "a" initial_world
            = (Normal (Some (JStr "https://signed/a")), w1)
            /\ forall w0,
                 localStorage w0 = localStorage w1 ->
                 module_init (P := Reference.engine) w0
                 = (Normal tt, with_cache (cache w1) w0)
                 /\ (clock w0 - clock w1 < IMAGE_URL_EXPIRATION ->
                     getImageUrl (P := Reference.engine) env "a"
                       (with_cache (cache w1) w0)
                     = (Normal (Some (JStr "https://signed/a")),
                        with_cache (cache w1) w0)).
Proof.
  intros env.
  assert (well_shaped (cache initial_world)) as Hshape
    by (intros k x Hx; simpl in Hx; by rewrite lookup_empty in Hx).
  split; [exact ReferenceFacts.reference_codec_reads_back|].
  split; [exact Hshape|]. split; [reflexivity|]. split; [reflexivity|].
  assert (exists st,
            setItem CACHE_KEY
              (@JSON_stringify Reference.engine
                 (Object_fromEntries
                    (<["a" := cache_entry "https://signed/a"
                                (clock initial_world
                                 + elapsed (getSignedUrl env (signing_request env "a")))]>
                       (cache initial_world))))
              (localStorage initial_world) = Normal st) as [st Hset]
    by (eexists; vm_compute; reflexivity).
  exists st. split; [exact Hset|].
  exact (getImageUrl_survives_reload (P := Reference.engine) env "a"
           "https://signed/a" initial_world st
           ReferenceFacts.reference_codec_reads_back Hshape eq_refl eq_refl Hset).
Defined.

Lemma loadImagesFromS3_requests_witness :
  let env := store three_photos [] in
  outcome (send_ListObjectsV2 env (BUCKET_NAME env))
  = Normal {| Contents := Some [photo_a; photo_b; photo_c] |}
  /\ requests (loadImagesFromS3 (P := Reference.engine) env [] fresh_world).2
     = requests fresh_world
       ++ ((fun object => signing_request env (Key object))
             <$> filter (fun object =>
                           cache_miss (P := Reference.engine)
                             (with_clock
                                (clock fresh_world
                                 + elapsed (send_ListObjectsV2 env (BUCKET_NAME env)))
                                fresh_world)
                             (Key object) = true)
                        (default [] (Contents {| Contents := Some [photo_a; photo_b; photo_c] |}))).
Proof.
  intros env. split; [reflexivity|].
  exact (loadImagesFromS3_requests (P := Reference.engine) env [] fresh_world
           {| Contents := Some [photo_a; photo_b; photo_c] |} eq_refl).
Defined.

Lemma loadImagesFromS3_all_cached_witness :
  let response := {| Contents := Some [photo_a] |} in
  let env := store (Normal response) [] in
  outcome (send_ListObjectsV2 env (BUCKET_NAME env)) = Normal response
  /\ Contents response = Some [photo_a]
  /\ (forall object,
        object ∈ [photo_a] ->
        cache_hit (P := Reference.engine)
          (with_clock
             (clock fresh_world + elapsed (send_ListObjectsV2 env (BUCKET_NAME env)))
             fresh_world)
          (Key object) = Normal true)
  /\ exists w',
       loadImagesFromS3 (P := Reference.engine) env [] fresh_world = (Normal tt, w')
       /\ requests w' = requests fresh_world
       /\ cache w' = cache fresh_world
       /\ localStorage w' = localStorage fresh_world
       /\ console w' = console fresh_world
       /\ images w'
          = Array_sort by_lastModified
              (omap (fun object =>
                       image_record object (cached_url fresh_world (Key object)))
                    [photo_a])
       /\ (forall r,
             r ∈ images w' <->
             exists object v,
               object ∈ [photo_a]
               /\ cached_url fresh_world (Key object) = Some v
               /\ ToBoolean (Some v) = true
               /\ r = {| id := Key object; url := v;
                         lastModified := LastModified object |})
       /\ Sorted newer_first (images w').
Proof.
  intros response env.
  assert (forall object,
            object ∈ [photo_a] ->
            cache_hit (P := Reference.engine)
              (with_clock
                 (clock fresh_world + elapsed (send_ListObjectsV2 env (BUCKET_NAME env)))
                 fresh_world)
              (Key object) = Normal true) as Hhits
    by (intros object ->%list_elem_of_singleton; reflexivity).
  split; [reflexivity|]. split; [reflexivity|]. split; [exact Hhits|].
  exact (loadImagesFromS3_all_cached (P := Reference.engine) env [] fresh_world
           response [photo_a] eq_refl eq_refl Hhits).
Defined.

Lemma loadImagesFromS3_unconvertible_timestamp_witness :
  let env := store three_photos [] in
  outcome (send_ListObjectsV2 env (BUCKET_NAME env))
  = Normal {| Contents := Some [photo_a; photo_b; photo_c] |}
  /\ photo_b ∈ [photo_a; photo_b; photo_c]
  /\ cache tampered_world !! Key photo_b = Some tampered_entry
  /\ ToBoolean (Some tampered_entry) = true
  /\ ToNumber (P := Reference.engine) (get_property tampered_entry "timestamp")
     = Throw (TypeError "Cannot convert object to primitive value")
  /\ exists e w',
       loadImagesFromS3 (P := Reference.engine) env [] tampered_world = (Normal tt, w')
       /\ console w' = console tampered_world ++ [("Error loading images from S3:", e)]
       /\ images w' = images tampered_world
       /\ loading w' = false.
Proof.
  intros env.
  assert (photo_b ∈ [photo_a; photo_b; photo_c]) as Hin
    by (apply elem_of_cons; right; apply elem_of_cons; by left).
  split; [reflexivity|]. split; [exact Hin|]. split; [reflexivity|].
  split; [reflexivity|]. split; [reflexivity|].
  exact (loadImagesFromS3_unconvertible_timestamp (P := Reference.engine) env []
           tampered_world {| Contents := Some [photo_a; photo_b; photo_c] |}
           [photo_a; photo_b; photo_c] photo_b tampered_entry
           (TypeError "Cannot convert object to primitive value")
           eq_refl eq_refl Hin eq_refl eq_refl eq_refl).
Defined.

Lemma loadImagesFromS3_listing_order_witness :
  let listed := [photo_b; photo_a; photo_c] in
  let response := {| Contents := Some listed |} in
  let env := store (Normal response) ["a"] in
  outcome (send_ListObjectsV2 env (BUCKET_NAME env)) = Normal response
  /\ Contents response = Some listed
  /\ timestamps_convert (P := Reference.engine) (cache initial_world)
  /\ Sorted listed_newer_first listed
  /\ images (loadImagesFromS3 (P := Reference.engine) env [2%nat; 0%nat] initial_world).2
     = omap (fun object =>
               image_record object
                 (resolved_url (P := Reference.engine) env
                    (with_clock
                       (clock initial_world
                        + elapsed (send_ListObjectsV2 env (BUCKET_NAME env)))
                       initial_world)
                    (Key object)))
            listed.
Proof.
  intros listed response env.
  assert (timestamps_convert (P := Reference.engine) (cache initial_world)) as Hconv
    by (intros key entry Hentry; simpl in Hentry; by rewrite lookup_empty in Hentry).
  assert (Sorted listed_newer_first listed) as Hsorted
    by (repeat constructor; unfold listed_newer_first; simpl; lia).
  split; [reflexivity|]. split; [reflexivity|]. split; [exact Hconv|].
  split; [exact Hsorted|].
  exact (loadImagesFromS3_listing_order (P := Reference.engine) env [2%nat; 0%nat]
           initial_world response listed eq_refl eq_refl Hconv Hsorted).
Defined.

Lemma toggleFavorite_twice_witness :
  exists st1 st2,
    setItem FAVORITES_KEY
      (@JSON_stringify Reference.engine (JArr (toggled "b" [JStr "a"])))
      (localStorage initial_world) = Normal st1
    /\ setItem FAVORITES_KEY
         (@JSON_stringify Reference.engine
            (JArr (if existsb (is_id "b") [JStr "a"]
                   then filter (fun x => is_id "b" x = false) [JStr "a"] ++ [JStr "b"]
                   else [JStr "a"])))
         st1 = Normal st2
    /\ (let* favorites := toggleFavorite (P := Reference.engine) "b" (JArr [JStr "a"]) in
        toggleFavorite (P := Reference.engine) "b" favorites) initial_world
       = (Normal (JArr (if existsb (is_id "b") [JStr "a"]
                        then filter (fun x => is_id "b" x = false) [JStr "a"]
                             ++ [JStr "b"]
                        else [JStr "a"])),
          with_localStorage st2 initial_world)
    /\ getItem FAVORITES_KEY st2
       = Normal (Some (@JSON_stringify Reference.engine
                         (JArr (if existsb (is_id "b") [JStr "a"]
                                then filter (fun x => is_id "b" x = false) [JStr "a"]
                                     ++ [JStr "b"]
                                else [JStr "a"])))).
Proof.
  assert (exists st1 st2,
            setItem FAVORITES_KEY
              (@JSON_stringify Reference.engine (JArr (toggled "b" [JStr "a"])))
              (localStorage initial_world) = Normal st1
            /\ setItem FAVORITES_KEY
                 (@JSON_stringify Reference.engine
                    (JArr (if existsb (is_id "b") [JStr "a"]
                           then filter (fun x => is_id "b" x = false) [JStr "a"]
                                ++ [JStr "b"]
                           else [JStr "a"])))
                 st1 = Normal st2) as (st1 & st2 & Hset1 & Hset2)
    by (do 2 eexists; split; vm_compute; reflexivity).
  exists st1, st2. split; [exact Hset1|]. split; [exact Hset2|].
  exact (toggleFavorite_twice (P := Reference.engine) "b" [JStr "a"] initial_world
           st1 st2 Hset1 Hset2).
Defined.

Lemma toggleFavorite_then_reload_witness :
  exists new w',
    toggleFavorite (P := Reference.engine) "a" (JArr []) initial_world = (Normal new, w')
    /\ @JSON_parse Reference.engine (@JSON_stringify Reference.engine new) = Normal new
    /\ @JSON_stringify Reference.engine new <> ""
    /\ localStorage w' = localStorage w'
    /\ initial_favorites (P := Reference.engine) w' = (Normal new, w').
Proof.
  assert (exists new w',
            toggleFavorite (P := Reference.engine) "a" (JArr []) initial_world
            = (Normal new, w')
            /\ @JSON_parse Reference.engine (@JSON_stringify Reference.engine new)
               = Normal new
            /\ @JSON_stringify Reference.engine new <> "")
    as (new & w' & Hrun & Hreads & Hnonempty).
  { do 2 eexists. split; [vm_compute; reflexivity|].
    split; [vm_compute; reflexivity|]. vm_compute. discriminate. }
  exists new, w'. split; [exact Hrun|]. split; [exact Hreads|].
  split; [exact Hnonempty|]. split; [reflexivity|].
  exact (toggleFavorite_then_reload (P := Reference.engine) "a" (JArr []) new
           initial_world w' w' Hrun Hreads Hnonempty eq_refl).
Defined.

Lemma toggleFavorite_keeps_ids_witness :
  favorite_ids (JArr [JStr "a"])
  /\ exists new w',
       toggleFavorite (P := Reference.engine) "b" (JArr [JStr "a"]) initial_world
       = (Normal new, w')
       /\ favorite_ids new.
Proof.
  assert (favorite_ids (JArr [JStr "a"])) as Hids.
  { exists ["a"]. split; [reflexivity|]. apply NoDup_singleton. }
  assert (exists new w',
            toggleFavorite (P := Reference.engine) "b" (JArr [JStr "a"]) initial_world
            = (Normal new, w')) as (new & w' & Hrun)
    by (do 2 eexists; vm_compute; reflexivity).
  split; [exact Hids|]. exists new, w'. split; [exact Hrun|].
  exact (toggleFavorite_keeps_ids (P := Reference.engine) "b" (JArr [JStr "a"]) new
           initial_world w' Hids Hrun).
Defined.

Lemma initial_favorites_unchecked_witness :
  let w :=
    with_localStorage
      {| items := {[ FAVORITES_KEY := "{}" ]}; denied := false; quota := 5000000 |}
      initial_world in
  getItem FAVORITES_KEY (localStorage w) = Normal (Some "{}")
  /\ "{}" <> ""
  /\ @JSON_parse Reference.engine "{}" = Normal (JObj ∅)
  /\ (forall l, JObj ∅ <> JArr l)
  /\ (forall t, JObj ∅ <> JStr t)
  /\ initial_favorites (P := Reference.engine) w = (Normal (JObj ∅), w)
  /\ forall imageId,
       (exists e, isFavorite (JObj ∅) imageId = Throw e)
       /\ (forall image imgs,
             exists e, visible_images true (JObj ∅) (image :: imgs) = Throw e)
       /\ forall w1,
            exists e, toggleFavorite (P := Reference.engine) imageId (JObj ∅) w1
                      = (Throw e, w1).
Proof.
  intros w.
  assert ("{}" <> "") as Hnonempty by discriminate.
  assert (forall l, JObj ∅ <> JArr l) as Harray by discriminate.
  assert (forall t, JObj ∅ <> JStr t) as Htext by discriminate.
  split; [reflexivity|]. split; [exact Hnonempty|]. split; [reflexivity|].
  split; [exact Harray|]. split; [exact Htext|].
  exact (initial_favorites_unchecked (P := Reference.engine) w "{}" (JObj ∅)
           eq_refl Hnonempty eq_refl Harray Htext).
Defined.

Lemma shared_image_after_load_witness :
  let env := store three_photos ["b"] in
  let response := {| Contents := Some [photo_a; photo_b; photo_c] |} in
  let contents := default [] (Contents response) in
  let arrival :=
    with_clock
      (clock initial_world + elapsed (send_ListObjectsV2 env (BUCKET_NAME env)))
      initial_world in
  let shown :=
    images (loadImagesFromS3 (P := Reference.engine) env [] initial_world).2 in
  outcome (send_ListObjectsV2 env (BUCKET_NAME env)) = Normal response
  /\ timestamps_convert (P := Reference.engine) (cache initial_world)
  /\ ((exists image, shared_image (Some "a") shown = Some image) <->
      "a" <> ""
      /\ exists object v,
           object ∈ contents
           /\ Key object = "a"
           /\ resolved_url (P := Reference.engine) env arrival (Key object) = Some v
           /\ ToBoolean (Some v) = true)
  /\ forall image,
       shared_image (Some "a") shown = Some image ->
       id image = "a" /\ image ∈ shown.
Proof.
  intros env response contents arrival shown.
  assert (timestamps_convert (P := Reference.engine) (cache initial_world)) as Hconv
    by (intros key entry Hentry; simpl in Hentry; by rewrite lookup_empty in Hentry).
  split; [reflexivity|]. split; [exact Hconv|].
  exact (shared_image_after_load (P := Reference.engine) env [] initial_world
           response "a" eq_refl Hconv).
Defined.

(** The link to [a] opens the image of [a]; the link to [b], whose signing
    failed, opens nothing. *)
Example shared_image_three_photos :
  let shown :=
    images (loadImagesFromS3 (P := Reference.engine) (store three_photos ["b"]) []
              initial_world).2 in
  shared_image (Some "a") shown = Some (signed_image photo_a)
  /\ shared_image (Some "b") shown = None.
Proof. vm_compute. split; reflexivity. Qed.
